(** * deep-pack: the dependency-graph resolver of [src/package.ts]

    A shallow embedding of the [Package] class: the node heap with its two
    process-wide caches, the retrying registry client, the version
    resolver, the cycle-breaking expansion and the archive downloader,
    followed by the properties proved about them. *)

From Stdlib Require Import Ascii String NArith.
From stdpp Require Import base option list strings gmap.

Local Open Scope string_scope.
Local Open Scope list_scope.

(** ** Values exchanged with the registry *)

(** [dist?: { shasum: string, tarball: string }] *)
Record Dist := mkDist { shasum : string; tarball : string }.

(** [interface APIResponse]. An absent optional field is [None]; an object
    is kept as the list of its entries, in [Object.entries] order. *)
#[warnings="-register-all"]
Inductive APIResponse := mkAPIResponse {
  api_dependencies : option (list (string * string));
  api_dist : option Dist;
  api_versions : option (list (string * APIResponse)) }.

(** What [response.json()] does: it rejects, or resolves to a falsy value,
    or resolves to a truthy one. A truthy value that is not an object has
    none of the three fields, as [mkAPIResponse None None None]. *)
Inductive JsonBody :=
  | JsonRejects
  | JsonFalsy
  | JsonValue (r : APIResponse).

(** A node-fetch [Response]: [buffer] is [None] when [response.buffer()]
    rejects. *)
Record Response := mkResponse {
  status : nat;
  statusText : string;
  json : JsonBody;
  buffer : option (list Byte.byte) }.

(** node-fetch: [ok] is [status >= 200 && status < 300]. *)
Definition ok (r : Response) : bool :=
  (200 <=? status r)%nat && (status r <? 300)%nat.

(** [StatusCode.ClientErrorNotFound] *)
Definition ClientErrorNotFound : nat := 404.

(** The result of [npmPackageArg]: the two fields the program reads. *)
Record NpaResult := mkNpa { npa_name : string; npa_fetchSpec : option string }.

(** The collaborators the program imports: the network, [semver],
    [npm-package-arg], [path] and [process]. [fetch n url] is the outcome of
    the request for [url] issued after [n] earlier requests, [None] when
    the promise rejects; [semver_coerce] gives [coerce(s)?.version];
    [npmPackageArg] is [None] when the parser throws. *)
Record Env := mkEnv {
  fetch : nat -> string -> option Response;
  semver_coerce : string -> option string;
  semver_maxSatisfying : list string -> string -> option string;
  npmPackageArg : string -> option NpaResult;
  path_basename : string -> string;
  path_resolve : string -> string -> string;
  process_cwd : string }.

(** ** Errors *)

(** [enum Errors] *)
Module Errors.
Definition NOT_FOUND : string := "not found".
Definition TOO_MANY_FAILURES : string := "too many failures".
Definition REGISTRY_ERROR : string := "REGISTRY_ERROR".
End Errors.

(** A thrown value: the program throws strings; reading a property of
    [undefined] throws a [TypeError]. *)
Inductive Thrown :=
  | ThrowStr (s : string)
  | TypeError.

#[global] Instance Thrown_eq_dec : EqDecision Thrown.
Proof. solve_decision. Defined.

(** ** Nodes and the process state *)

(** A [Package] object is addressed by its position in the heap; the
    position is the object's identity. *)
Definition loc := nat.

Record Package := mkPackage {
  dependencies : list loc;
  dependents : list loc;
  error : bool;
  loading : bool;
  name : string;
  resolved : bool;
  tarballURL : option string;
  version : string }.

(** [constructor(name, version?)] with the field initialisers. *)
Definition new_Package (name : string) (version : option string) : Package :=
  {| dependencies := []; dependents := []; error := false; loading := false;
     name := name; resolved := false; tarballURL := None;
     version := default "latest" version |}.

#[global] Instance Package_inhabited : Inhabited Package :=
  populate (new_Package "" None).

(** The mutable state: the objects, the static [cache] and [apiCache], and
    the two effects on the outside: the requested URLs (latest first) and
    the files written (latest first). *)
Record World := mkWorld {
  heap : list Package;
  cache : gmap string loc;
  apiCache : gmap string APIResponse;
  requests : list string;
  files : list (string * list Byte.byte) }.

Definition emptyWorld : World :=
  {| heap := []; cache := ∅; apiCache := ∅; requests := []; files := [] |}.

Definition with_heap (h : list Package) (w : World) : World :=
  {| heap := h; cache := cache w; apiCache := apiCache w;
     requests := requests w; files := files w |}.
Definition with_cache (c : gmap string loc) (w : World) : World :=
  {| heap := heap w; cache := c; apiCache := apiCache w;
     requests := requests w; files := files w |}.
Definition with_apiCache (c : gmap string APIResponse) (w : World) : World :=
  {| heap := heap w; cache := cache w; apiCache := c;
     requests := requests w; files := files w |}.
Definition with_requests (r : list string) (w : World) : World :=
  {| heap := heap w; cache := cache w; apiCache := apiCache w;
     requests := r; files := files w |}.
Definition with_files (f : list (string * list Byte.byte)) (w : World) : World :=
  {| heap := heap w; cache := cache w; apiCache := apiCache w;
     requests := requests w; files := f |}.

(** Field assignments on a node. *)
Definition set_dependencies (v : list loc) (p : Package) : Package :=
  {| dependencies := v; dependents := dependents p; error := error p;
     loading := loading p; name := name p; resolved := resolved p;
     tarballURL := tarballURL p; version := version p |}.
Definition set_dependents (v : list loc) (p : Package) : Package :=
  {| dependencies := dependencies p; dependents := v; error := error p;
     loading := loading p; name := name p; resolved := resolved p;
     tarballURL := tarballURL p; version := version p |}.
Definition set_error (v : bool) (p : Package) : Package :=
  {| dependencies := dependencies p; dependents := dependents p; error := v;
     loading := loading p; name := name p; resolved := resolved p;
     tarballURL := tarballURL p; version := version p |}.
Definition set_loading (v : bool) (p : Package) : Package :=
  {| dependencies := dependencies p; dependents := dependents p;
     error := error p; loading := v; name := name p; resolved := resolved p;
     tarballURL := tarballURL p; version := version p |}.
Definition set_resolved (v : bool) (p : Package) : Package :=
  {| dependencies := dependencies p; dependents := dependents p;
     error := error p; loading := loading p; name := name p; resolved := v;
     tarballURL := tarballURL p; version := version p |}.
Definition set_tarballURL (v : option string) (p : Package) : Package :=
  {| dependencies := dependencies p; dependents := dependents p;
     error := error p; loading := loading p; name := name p;
     resolved := resolved p; tarballURL := v; version := version p |}.

(** [w.heap[l]], and the in-place update of the object at [l]. *)
Definition deref (w : World) (l : loc) : Package := heap w !!! l.
Definition update (l : loc) (f : Package -> Package) (w : World) : World :=
  with_heap (alter f l (heap w)) w.

(** ** Computations: state, exceptions, bounded recursion *)

(** A call returns, throws, or exhausts the recursion budget given to
    [isAncestorEqual]; the state changes made before a throw stay. *)
Inductive outcome (A : Type) :=
  | Ok (a : A)
  | Throw (e : Thrown)
  | OutOfFuel.
Arguments Ok {A} a.
Arguments Throw {A} e.
Arguments OutOfFuel {A}.

Definition M (A : Type) : Type := World -> outcome A * World.

Definition ret {A} (a : A) : M A := fun w => (Ok a, w).
Definition throw {A} (e : Thrown) : M A := fun w => (Throw e, w).
Definition bind {A B} (c : M A) (k : A -> M B) : M B := fun w =>
  match c w with
  | (Ok a, w') => k a w'
  | (Throw e, w') => (Throw e, w')
  | (OutOfFuel, w') => (OutOfFuel, w')
  end.
Definition modify (f : World -> World) : M unit := fun w => (Ok tt, f w).

Notation "'let*' x ':=' c 'in' k" := (bind c (fun x => k))
  (at level 10, x name, c at level 100, k at level 200).

(** ** String helpers of the language *)

(** [s.includes(sub)] *)
Fixpoint includes (s sub : string) : bool :=
  if String.prefix sub s then true
  else match s with
       | EmptyString => false
       | String _ s' => includes s' sub
       end.

(** Truthiness of a string, and of [string | undefined]. *)
Definition truthy (s : string) : bool := negb (String.eqb s "").
Definition truthy_opt (s : option string) : bool :=
  match s with Some s => truthy s | None => false end.

(** The own property [key] of an object kept as its entry list (an object
    has each key once; the first entry is taken). *)
Fixpoint own_entry {A} (key : string) (entries : list (string * A)) : option A :=
  match entries with
  | [] => None
  | (k, v) :: rest => if String.eqb k key then Some v else own_entry key rest
  end.

(** [Object.getOwnPropertyNames(Object.prototype)]: what every object made
    by [JSON.parse] inherits. *)
Definition Object_prototype_keys : list string :=
  ["constructor"; "__defineGetter__"; "__defineSetter__"; "hasOwnProperty";
   "__lookupGetter__"; "__lookupSetter__"; "isPrototypeOf";
   "propertyIsEnumerable"; "toString"; "valueOf"; "__proto__";
   "toLocaleString"].

(** A value inherited from [Object.prototype] (a function, or the prototype
    itself for [__proto__]): truthy, and with none of the three fields. *)
Definition inherited_value : APIResponse :=
  {| api_dependencies := None; api_dist := None; api_versions := None |}.

(** The property read [obj[key]]: the own entry when there is one, else
    what [Object.prototype] has under that name, else [None] for
    [undefined]. *)
Definition get_entry (key : string) (entries : list (string * APIResponse))
  : option APIResponse :=
  match own_entry key entries with
  | Some v => Some v
  | None =>
      if bool_decide (key ∈ Object_prototype_keys) then Some inherited_value
      else None
  end.

(** [Object.keys(obj)] *)
Definition keys {A} (entries : list (string * A)) : list string := entries.*1.

(** ** Paths *)







(** ** The program *)

Definition fullNameByNameAndVersion (name version : string) : string :=
  name +:+ "@" +:+ version.
Arguments fullNameByNameAndVersion : simpl never.

(** [static readonly MAX_TRIES] *)
Definition MAX_TRIES : nat := 10.

(** [get isRoot], [get fullName], [isEqual], [toString] *)
Definition isRoot (p : Package) : bool := Nat.eqb (length (dependents p)) 0.
Definition fullName (p : Package) : string :=
  fullNameByNameAndVersion (name p) (version p).
Definition isEqual (this pkg : Package) : bool :=
  String.eqb (fullName pkg) (fullName this).
Definition toString (p : Package) : string := fullName p.

(** [array.includes(x)] on object references. *)
Definition includes_loc (l : list loc) (x : loc) : bool :=
  existsb (Nat.eqb x) l.

(** [this.addDependent(pkg)] *)
Definition addDependent (this pkg : loc) : M unit := fun w =>
  if includes_loc (dependents (deref w this)) pkg then (Ok tt, w)
  else (Ok tt, update this (fun p => set_dependents (dependents p ++ [pkg]) p) w).

(** [array.some(f)] for a callback that may itself run out of budget:
    left to right, stopping at the first [true]. *)
Fixpoint some_of {A} (f : A -> option bool) (l : list A) : option bool :=
  match l with
  | [] => Some false
  | x :: rest =>
      match f x with
      | Some true => Some true
      | Some false => some_of f rest
      | None => None
      end
  end.

(** [this.isAncestorEqual(pkg)]; [fuel] bounds the depth of the recursion
    through [dependents]. *)
Fixpoint isAncestorEqual (fuel : nat) (w : World) (this pkg : loc) : option bool :=
  match fuel with
  | O => None
  | S fuel' =>
      if isEqual (deref w pkg) (deref w this) then Some true
      else if isRoot (deref w this) then Some false
      else some_of (fun dependent => isAncestorEqual fuel' w dependent pkg)
                   (dependents (deref w this))
  end.

Definition isAncestorEqualM (fuel : nat) (this pkg : loc) : M bool := fun w =>
  match isAncestorEqual fuel w this pkg with
  | Some b => (Ok b, w)
  | None => (OutOfFuel, w)
  end.

(** [Package.fromNameAndVersion(name, version)] *)
Definition fromNameAndVersion (name version : string) : M loc := fun w =>
  let fullName_ := fullNameByNameAndVersion name version in
  match cache w !! fullName_ with
  | Some cachedPkg => (Ok cachedPkg, w)
  | None =>
      let obj := new_Package name (Some version) in
      let result := length (heap w) in
      let w1 := with_heap (heap w ++ [obj]) w in
      (Ok result, with_cache (<[fullName obj := result]> (cache w1)) w1)
  end.

(** The URL of a metadata request:
    [`https://registry.npmjs.org/${name}/${version}`]. *)
Definition registry_url (name version : string) : string :=
  "https://registry.npmjs.org/" +:+ name +:+ "/" +:+ version.
Arguments registry_url : simpl never.

(** The retry loop of [apiRequest]: [remaining] is [MAX_TRIES - triesCount].
    Every pass issues one request; a rejected [fetch], a falsy body and a
    rejected [json()] all reach the loop condition, a response that is not
    [ok] throws at once. *)
Fixpoint apiRequest_loop (E : Env) (remaining : nat) (url : string) : M APIResponse :=
  fun w =>
  match remaining with
  | O => (Throw (ThrowStr Errors.TOO_MANY_FAILURES), w)
  | S remaining' =>
      let response := fetch E (length (requests w)) url in
      let w1 := with_requests (url :: requests w) w in
      match response with
      | None => apiRequest_loop E remaining' url w1
      | Some response =>
          if negb (ok response) then
            if Nat.eqb (status response) ClientErrorNotFound
            then (Throw (ThrowStr Errors.REGISTRY_ERROR), w1)
            else (Throw (ThrowStr (statusText response)), w1)
          else
            match json response with
            | JsonValue apiResponse => (Ok apiResponse, w1)
            | JsonFalsy => apiRequest_loop E remaining' url w1
            | JsonRejects => apiRequest_loop E remaining' url w1
            end
      end
  end.

(** [Package.apiRequest({ name, version })]. The result is [None] when the
    read of the cached versions object under the version gives
    [undefined]: no entry of its own, and nothing inherited. *)
Definition apiRequest (E : Env) (name : string) (version : option string)
  : M (option APIResponse) := fun w =>
  match apiCache w !! name with
  | Some cachedResponse =>
      if truthy_opt version then
        match api_versions cachedResponse with
        | None => (Throw TypeError, w)
        | Some versions => (Ok (get_entry (default "" version) versions), w)
        end
      else (Ok (Some cachedResponse), w)
  | None =>
      let version := if truthy_opt version then default "" version else "" in
      match apiRequest_loop E MAX_TRIES (registry_url name version) w with
      | (Ok apiResponse, w1) =>
          if String.eqb version ""
          then (Ok (Some apiResponse),
                with_apiCache (<[name := apiResponse]> (apiCache w1)) w1)
          else (Ok (Some apiResponse), w1)
      | (Throw e, w1) => (Throw e, w1)
      | (OutOfFuel, w1) => (OutOfFuel, w1)
      end
  end.

(** The local [version] computed by [fromSemanticVersion]. *)
Definition resolveVersion (E : Env) (name semanticVersion : string) : M string :=
  if String.eqb semanticVersion "*" then ret "latest"
  else if includes semanticVersion "<" || includes semanticVersion "-" then
    let* apiResponse := apiRequest E name None in
    match apiResponse with
    | None => throw TypeError
    | Some apiResponse =>
        match api_versions apiResponse with
        | None => throw TypeError
        | Some versions =>
            ret (default "latest"
                   (semver_maxSatisfying E (keys versions) semanticVersion))
        end
    end
  else ret (default "latest" (semver_coerce E semanticVersion)).

(** [Package.fromSemanticVersion(name, semanticVersion)] *)
Definition fromSemanticVersion (E : Env) (name semanticVersion : string) : M loc :=
  let* version := resolveVersion E name semanticVersion in
  fromNameAndVersion name version.

(** [Package.fromString(s)]; [None] is [undefined]. *)
Definition fromString (E : Env) (pacakgeNameInAnyFormat : string) : M (option loc) :=
  match npmPackageArg E pacakgeNameInAnyFormat with
  | None => ret None
  | Some pacakgeArgResult =>
      let packageName := npa_name pacakgeArgResult in
      let packageVersion := default "latest" (npa_fetchSpec pacakgeArgResult) in
      let* pkg := fromNameAndVersion packageName packageVersion in
      ret (Some pkg)
  end.

(** [Package.fillCacheByFullNames(fullNames)] *)
Fixpoint fillCacheByFullNames (E : Env) (fullNames : list string) : M unit :=
  match fullNames with
  | [] => ret tt
  | fullName_ :: rest =>
      let* pkg := fromString E fullName_ in
      match pkg with
      | None => fillCacheByFullNames E rest
      | Some pkg =>
          let* _ := modify (update pkg (set_resolved true)) in
          let* _ := modify (fun w => with_cache (<[fullName_ := pkg]> (cache w)) w) in
          fillCacheByFullNames E rest
      end
  end.

(** The [for ... of Object.entries(dependencies)] loop of [getDependencies],
    with the array [result] built so far. *)
Fixpoint getDependencies_loop (E : Env) (fuel : nat) (this : loc)
    (entries : list (string * string)) (result : list loc) : M (list loc) :=
  match entries with
  | [] => ret result
  | (packageName, packageSemanticVersion) :: rest =>
      let* dependency := fromSemanticVersion E packageName packageSemanticVersion in
      let* cyclic := isAncestorEqualM fuel this dependency in
      if (cyclic : bool) then getDependencies_loop E fuel this rest result
      else
        let* _ := addDependent dependency this in
        getDependencies_loop E fuel this rest (result ++ [dependency])
  end.

(** [this.getDependencies()] *)
Definition getDependencies (E : Env) (fuel : nat) (this : loc) : M (list loc) :=
  fun w =>
  let w0 := update this (set_loading true) w in
  match apiRequest E (name (deref w0 this)) (Some (version (deref w0 this))) w0 with
  | (Throw e, w1) =>
      if decide (e = ThrowStr Errors.REGISTRY_ERROR) then (Ok [], w1)
      else (Throw e,
            update this (set_loading false) (update this (set_error true) w1))
  | (OutOfFuel, w1) => (OutOfFuel, w1)
  | (Ok None, w1) => (Throw TypeError, w1)
  | (Ok (Some responseBodyAsJSON), w1) =>
      let w2 := update this
                  (set_tarballURL (tarball <$> api_dist responseBodyAsJSON)) w1 in
      match api_dependencies responseBodyAsJSON with
      | None => (Ok [], w2)
      | Some deps =>
          match getDependencies_loop E fuel this deps [] w2 with
          | (Ok result, w3) => (Ok result, update this (set_dependencies result) w3)
          | other => other
          end
      end
  end.

(** [get tgzFileName] *)
Definition tgzFileName (E : Env) (p : Package) : option string :=
  if truthy_opt (tarballURL p) then path_basename E <$> tarballURL p
  else None.

(** The retry loop of [download]: [remaining] is [MAX_TRIES - triesCount];
    it returns the bytes on [break]. The status of the response is not
    read. *)
Fixpoint download_loop (E : Env) (remaining : nat) (url : string) : M (list Byte.byte) :=
  fun w =>
  match remaining with
  | O => (Throw (ThrowStr "`downloading ${this} failed`"), w)
  | S remaining' =>
      let response := fetch E (length (requests w)) url in
      let w1 := with_requests (url :: requests w) w in
      match response with
      | None => download_loop E remaining' url w1
      | Some response =>
          match buffer response with
          | None => download_loop E remaining' url w1
          | Some tgzFileData => (Ok tgzFileData, w1)
          end
      end
  end.

(** [fs.writeFileSync(path, data)], recorded in [files]. *)
Definition writeFileSync (path : string) (data : list Byte.byte) : M unit :=
  modify (fun w => with_files ((path, data) :: files w) w).

(** [this.download()]; what it prints on the console is left out. *)
Definition download (E : Env) (this : loc) : M unit := fun w =>
  let p := deref w this in
  if negb (truthy_opt (tarballURL p)) || negb (truthy_opt (tgzFileName E p))
  then (Throw (ThrowStr "not enough data for download tgz file"), w)
  else
    (let* tgzFileData := download_loop E MAX_TRIES (default "" (tarballURL p)) in
     writeFileSync (path_resolve E (process_cwd E) (default "" (tgzFileName E p)))
                   tgzFileData) w.

(** ** Reference collaborators

    Executable stand-ins for the imported libraries, used to run the
    program on concrete registries. The general properties below hold for
    every [Env]; these fix one. *)

Module Lib.

Definition is_digit (c : ascii) : bool :=
  (48 <=? nat_of_ascii c)%nat && (nat_of_ascii c <=? 57)%nat.

(** The longest prefix of digits, and what follows it. *)
Fixpoint take_digits (s : string) : string * string :=
  match s with
  | EmptyString => ("", "")
  | String c s' =>
      if is_digit c
      then let '(d, r) := take_digits s' in (String c d, r)
      else ("", s)
  end.

Fixpoint N_of_digits (acc : N) (s : string) : N :=
  match s with
  | EmptyString => acc
  | String c s' => N_of_digits (acc * 10 + (N_of_ascii c - 48))%N s'
  end.

Definition MAX_SAFE_INTEGER : N := 9007199254740991%N.

(** A numeric identifier of semver: no leading zero, at most
    [MAX_SAFE_INTEGER]. *)
Definition numeric_identifier (d : string) : bool :=
  match d with
  | EmptyString => false
  | String c rest =>
      forallb is_digit (list_ascii_of_string d)
      && (negb (Ascii.eqb c "0") || String.eqb rest "")
      && (N_of_digits 0 d <=? MAX_SAFE_INTEGER)%N
  end.

(** semver's coercion pattern: the leftmost run of one to sixteen digits
    that is a whole run. *)
Fixpoint coerce_find (fuel : nat) (s : string) : option (string * string) :=
  match fuel, s with
  | O, _ | _, EmptyString => None
  | S fuel', String c s' =>
      if is_digit c then
        let '(d, r) := take_digits s in
        if (String.length d <=? 16)%nat then Some (d, r)
        else coerce_find fuel' r
      else coerce_find fuel' s'
  end.

(** An optional [.digits] group of the pattern. *)
Definition coerce_group (s : string) : option (string * string) :=
  match s with
  | String "."%char s' =>
      let '(d, r) := take_digits s' in
      if (1 <=? String.length d)%nat && (String.length d <=? 16)%nat
      then Some (d, r) else None
  | _ => None
  end.

(** [semver.coerce(s)?.version] for a string [s]. *)
Definition coerce (s : string) : option string :=
  match coerce_find (String.length s) s with
  | None => None
  | Some (major, r) =>
      let '(minor, r1) := default ("0", r) (coerce_group r) in
      let '(patch, _) := default ("0", r1) (coerce_group r1) in
      if numeric_identifier major && numeric_identifier minor
         && numeric_identifier patch
      then Some (major +:+ "." +:+ minor +:+ "." +:+ patch)
      else None
  end.

(** A version [X.Y.Z] without pre-release or build tag. *)
Definition parse_version (s : string) : option (N * N * N) :=
  let '(a, r1) := take_digits s in
  match r1 with
  | String "."%char r1' =>
      let '(b, r2) := take_digits r1' in
      match r2 with
      | String "."%char r2' =>
          let '(c, r3) := take_digits r2' in
          if String.eqb r3 "" && numeric_identifier a
             && numeric_identifier b && numeric_identifier c
          then Some (N_of_digits 0 a, N_of_digits 0 b, N_of_digits 0 c)
          else None
      | _ => None
      end
  | _ => None
  end.

(** Precedence of two such versions. *)
Definition version_compare (v1 v2 : N * N * N) : comparison :=
  let '(a1, b1, c1) := v1 in
  let '(a2, b2, c2) := v2 in
  match (a1 ?= a2)%N with
  | Eq => match (b1 ?= b2)%N with Eq => (c1 ?= c2)%N | o => o end
  | o => o
  end.
Definition version_ltb (v1 v2 : N * N * N) : bool :=
  match version_compare v1 v2 with Lt => true | _ => false end.
Definition version_leb (v1 v2 : N * N * N) : bool := negb (version_ltb v2 v1).

(** One comparator of a range: [>=v], [<=v], [>v], [<v], [=v], [v],
    [^v] or [~v]; [None] when it is none of these. *)
Definition comparator (tok : string) : option (N * N * N -> bool) :=
  match tok with
  | String ">"%char (String "="%char v) =>
      (fun b x => version_leb b x) <$> parse_version v
  | String "<"%char (String "="%char v) =>
      (fun b x => version_leb x b) <$> parse_version v
  | String ">"%char v => (fun b x => version_ltb b x) <$> parse_version v
  | String "<"%char v => (fun b x => version_ltb x b) <$> parse_version v
  | String "="%char v =>
      (fun b x => version_leb b x && version_leb x b) <$> parse_version v
  | String "^"%char v =>
      (fun b x =>
         let '(ma, mi, pa) := b in
         let upper :=
           if (0 <? ma)%N then (ma + 1, 0, 0)%N
           else if (0 <? mi)%N then (0, mi + 1, 0)%N
           else (0, 0, pa + 1)%N in
         version_leb b x && version_ltb x upper) <$> parse_version v
  | String "~"%char v =>
      (fun b x =>
         let '(ma, mi, _) := b in
         version_leb b x && version_ltb x (ma, mi + 1, 0)%N) <$> parse_version v
  | v => (fun b x => version_leb b x && version_leb x b) <$> parse_version v
  end.

(** The words of [s] between spaces, with the word being read in [cur]. *)
Fixpoint words (cur : string) (s : string) : list string :=
  match s with
  | EmptyString => if String.eqb cur "" then [] else [cur]
  | String c s' =>
      if Ascii.eqb c " "
      then (if String.eqb cur "" then words "" s' else cur :: words "" s')
      else words (cur +:+ String c "") s'
  end.

(** A range that is a conjunction of comparators; [None] otherwise. *)
Fixpoint parse_range (toks : list string) : option (N * N * N -> bool) :=
  match toks with
  | [] => Some (fun _ => true)
  | tok :: rest =>
      match comparator tok, parse_range rest with
      | Some c, Some r => Some (fun x => c x && r x)
      | _, _ => None
      end
  end.

(** [semver.maxSatisfying(versions, range)] on this fragment: the
    greatest listed version that the range accepts, [None] for [null]. *)
Definition maxSatisfying (versions : list string) (range : string) : option string :=
  match parse_range (words "" range) with
  | None => None
  | Some sat =>
      fold_left
        (fun best v =>
           match parse_version v with
           | Some x =>
               if sat x then
                 match best ≫= parse_version with
                 | Some m => if version_ltb m x then Some v else best
                 | None => Some v
                 end
               else best
           | None => best
           end)
        versions None
  end.

(** The position of the last [@] of [s] that is not its first character,
    as the pair of what is before and after it. *)
Fixpoint split_at_last (s : string) : option (string * string) :=
  match s with
  | EmptyString => None
  | String c s' =>
      match split_at_last s' with
      | Some (a, b) => Some (String c a, b)
      | None => if Ascii.eqb c "@" then Some ("", s') else None
      end
  end.

(** [npmPackageArg] on registry specifiers [name], [name@spec] and
    [@scope/name[@spec]]; a specifier without a name is rejected. *)
Definition npa (s : string) : option NpaResult :=
  match s with
  | EmptyString => None
  | String c s' =>
      match split_at_last s' with
      | Some (a, spec) =>
          Some (mkNpa (String c a)
                      (Some (if String.eqb spec "" then "latest" else spec)))
      | None => Some (mkNpa s (Some "latest"))
      end
  end.

(** [path.basename] of a path that does not end in a slash. *)
Fixpoint basename (s : string) : string :=
  match s with
  | EmptyString => ""
  | String c s' =>
      if includes s' "/" then basename s'
      else if Ascii.eqb c "/" then s' else s
  end.

(** [path.resolve(dir, file)] for a plain file name. *)
Definition resolve (dir file : string) : string := dir +:+ "/" +:+ file.

(** The environment over a given network. *)
Definition env (net : nat -> string -> option Response) : Env :=
  {| fetch := net; semver_coerce := coerce; semver_maxSatisfying := maxSatisfying;
     npmPackageArg := npa; path_basename := basename; path_resolve := resolve;
     process_cwd := "/work" |}.

End Lib.


(** ** Scenarios *)

Module Fixture.

Definition respond (r : APIResponse) : Response :=
  {| status := 200; statusText := "OK"; json := JsonValue r; buffer := Some [] |}.

Definition not_found : Response :=
  {| status := 404; statusText := "Not Found"; json := JsonFalsy;
     buffer := Some [Byte.x34; Byte.x30; Byte.x34] |}.

Definition server_error : Response :=
  {| status := 500; statusText := "Internal Server Error"; json := JsonRejects;
     buffer := Some [] |}.

Definition manifest (deps : list (string * string)) : APIResponse :=
  {| api_dependencies := Some deps; api_dist := None; api_versions := None |}.

(** A registry that knows nothing, one that always fails, and no network
    at all. *)
Definition net_404 : nat -> string -> option Response := fun _ _ => Some not_found.
Definition net_500 : nat -> string -> option Response := fun _ _ => Some server_error.
Definition net_down : nat -> string -> option Response := fun _ _ => None.

(** A registry where [dep] is published as 3.0.0, 3.9.3 and 4.0.0. *)
Definition dep_packument : APIResponse :=
  {| api_dependencies := None; api_dist := None;
     api_versions := Some [("3.0.0", manifest []); ("3.9.3", manifest []);
                           ("4.0.0", manifest [])] |}.
Definition net_dep : nat -> string -> option Response := fun _ url =>
  if String.eqb url "https://registry.npmjs.org/dep/"
  then Some (respond dep_packument) else Some not_found.

(** A registry where [a@1.0.0] depends on [b] and [b@1.0.0] on [a]. *)
Definition net_cycle : nat -> string -> option Response := fun _ url =>
  if String.eqb url "https://registry.npmjs.org/a/1.0.0"
  then Some (respond (manifest [("b", "1.0.0")]))
  else if String.eqb url "https://registry.npmjs.org/b/1.0.0"
  then Some (respond (manifest [("a", "1.0.0")]))
  else Some not_found.

(** A node that has a tarball URL, alone in the heap. *)
Definition with_tarball : World :=
  with_heap
    [set_tarballURL (Some "https://registry.npmjs.org/left-pad/-/left-pad-1.3.0.tgz")
       (new_Package "left-pad" (Some "1.3.0"))]
    emptyWorld.

End Fixture.

(** ** Invariant and failure classes used by the statements *)

(** Every cached reference denotes an object. *)
Definition cache_valid (w : World) : Prop :=
  forall key l, cache w !! key = Some l -> l < length (heap w).

(** An attempt of [apiRequest] that only reaches the loop condition: the
    request rejected, or a successful response whose body is unreadable or
    falsy. *)
Definition attempt_retried (o : option Response) : bool :=
  match o with
  | None => true
  | Some r =>
      ok r && match json r with JsonValue _ => false | _ => true end
  end.

(** The same for [download]: the request or the reading of the body
    rejected. *)
Definition download_retried (o : option Response) : bool :=
  match o with
  | None => true
  | Some r => match buffer r with None => true | Some _ => false end
  end.

(** ** Relations between nodes and between states *)

(** [n] is [this], or is reached from it by following [dependents]: the
    nodes that [isAncestorEqual] visits. *)
Inductive ancestor (w : World) : loc -> loc -> Prop :=
  | ancestor_self this : ancestor w this this
  | ancestor_step this d n :
      d ∈ dependents (deref w this) -> ancestor w d n -> ancestor w this n.

(** What a later state keeps of an earlier one: the objects are still
    there with their name and version, their dependents are still recorded,
    and every cache entry still leads to the same object. *)
Definition preserved (w w' : World) : Prop :=
  length (heap w) <= length (heap w')
  /\ (forall l, l < length (heap w) ->
        name (deref w' l) = name (deref w l)
        /\ version (deref w' l) = version (deref w l)
        /\ dependents (deref w l) ⊆ dependents (deref w' l))
  /\ (forall key l, cache w !! key = Some l -> cache w' !! key = Some l).

(** [preserved], and valid cached references stay valid. *)
Definition evolves (w w' : World) : Prop :=
  preserved w w' /\ (cache_valid w -> cache_valid w').

(** The dependents form no cycle: some measure of the nodes decreases
    along every dependent edge. *)
Definition acyclic (w : World) : Prop :=
  exists rank : loc -> nat,
    forall n d, d ∈ dependents (deref w n) -> rank d < rank n.

(** Whether [target] is [from] or is found from it through at most [fuel]
    dependent edges, by object identity. *)
Fixpoint reaches (fuel : nat) (w : World) (from target : loc) : bool :=
  match fuel with
  | O => false
  | S fuel' =>
      Nat.eqb from target
      || existsb (fun d => reaches fuel' w d target) (dependents (deref w from))
  end.

(** [later E w w']: [w'] comes after [w] by calls of the operations other
    than the seeding, whatever the outcome of each call. *)
Inductive later (E : Env) (w : World) : World -> Prop :=
  | later_now : later E w w
  | later_fromNameAndVersion w' n v :
      later E w w' -> later E w (fromNameAndVersion n v w').2
  | later_fromSemanticVersion w' n sv :
      later E w w' -> later E w (fromSemanticVersion E n sv w').2
  | later_fromString w' s :
      later E w w' -> later E w (fromString E s w').2
  | later_apiRequest w' n v :
      later E w w' -> later E w (apiRequest E n v w').2
  | later_getDependencies w' fuel this :
      later E w w' -> later E w (getDependencies E fuel this w').2
  | later_download w' this :
      later E w w' -> later E w (download E this w').2.

(** The states that the program reaches from an empty process through its
    constructors, the seeding, the expansion of an existing node and the
    download, whatever the outcome of each call. *)
Inductive reachable (E : Env) : World -> Prop :=
  | reachable_empty : reachable E emptyWorld
  | reachable_fromNameAndVersion w n v :
      reachable E w -> reachable E (fromNameAndVersion n v w).2
  | reachable_fromSemanticVersion w n sv :
      reachable E w -> reachable E (fromSemanticVersion E n sv w).2
  | reachable_fromString w s :
      reachable E w -> reachable E (fromString E s w).2
  | reachable_fillCacheByFullNames w fullNames :
      reachable E w -> reachable E (fillCacheByFullNames E fullNames w).2
  | reachable_getDependencies w fuel this :
      reachable E w -> this < length (heap w) ->
      reachable E (getDependencies E fuel this w).2
  | reachable_download w this :
      reachable E w -> this < length (heap w) ->
      reachable E (download E this w).2.

(** Every dependency edge is mirrored among the dependents. *)
Definition mirrored (w : World) : Prop :=
  forall l d, d ∈ dependencies (deref w l) ->
    d < length (heap w) /\ l ∈ dependents (deref w d).

(** One object per full name: the full name of every object is a key of the
    cache, and two objects never share a full name. *)
Definition one_node_per_name (w : World) : Prop :=
  (forall l, l < length (heap w) -> is_Some (cache w !! fullName (deref w l)))
  /\ (forall l1 l2, l1 < length (heap w) -> l2 < length (heap w) ->
        fullName (deref w l1) = fullName (deref w l2) -> l1 = l2).

(** Every object is the one that the cache has under its full name. *)
Definition cached_by_name (w : World) : Prop :=
  forall l, l < length (heap w) -> cache w !! fullName (deref w l) = Some l.



(** Two nodes, the second with the first as its dependent. *)
Definition chain_world : World :=
  with_heap [new_Package "a" (Some "1.0.0");
             set_dependents [0] (new_Package "b" (Some "1.0.0"))]
            emptyWorld.

(** ** Basic facts *)

Lemma deref_update_same w l f :
  l < length (heap w) -> deref (update l f w) l = f (deref w l).
Proof.
  intros Hl. unfold deref, update; simpl.
  destruct (lookup_lt_is_Some_2 (heap w) l Hl) as [p Hp].
  rewrite (list_lookup_total_correct _ _ _ Hp).
  apply list_lookup_total_correct.
  rewrite list_lookup_alter_eq, Hp. reflexivity.
Qed.

Lemma deref_update_other w l l' f :
  l <> l' -> deref (update l f w) l' = deref w l'.
Proof.
  intros Hne. unfold deref, update; simpl.
  rewrite !list_lookup_total_alt, list_lookup_alter_ne by done. reflexivity.
Qed.

(** A field that [f] does not touch reads the same after the update. *)
Lemma deref_update_field {A} (g : Package -> A) w l l' f :
  (forall p, g (f p) = g p) -> g (deref (update l f w) l') = g (deref w l').
Proof.
  intros Hg. destruct (decide (l = l')) as [<-|Hne].
  - destruct (decide (l < length (heap w))) as [Hl|Hl].
    + rewrite deref_update_same by done. apply Hg.
    + unfold deref, update; simpl. rewrite !list_lookup_total_alt.
      rewrite list_lookup_alter_eq.
      rewrite (lookup_ge_None_2 (heap w) l) by lia. reflexivity.
  - rewrite deref_update_other by done. reflexivity.
Qed.

Lemma fromNameAndVersion_returns name version w :
  exists l w', fromNameAndVersion name version w = (Ok l, w').
Proof.
  unfold fromNameAndVersion.
  destruct (cache w !! fullNameByNameAndVersion name version); eauto.
Qed.

Lemma fromNameAndVersion_cached name version w l :
  cache w !! fullNameByNameAndVersion name version = Some l ->
  fromNameAndVersion name version w = (Ok l, w).
Proof. intros H. unfold fromNameAndVersion. rewrite H. reflexivity. Qed.

Lemma fromNameAndVersion_spec name version w l w' :
  fromNameAndVersion name version w = (Ok l, w') ->
  cache w' !! fullNameByNameAndVersion name version = Some l
  /\ requests w' = requests w /\ files w' = files w
  /\ apiCache w' = apiCache w
  /\ (cache_valid w -> cache_valid w' /\ l < length (heap w')).
Proof.
  unfold fromNameAndVersion.
  destruct (cache w !! fullNameByNameAndVersion name version) as [c|] eqn:Hc;
    intros H; inversion H; subst; clear H.
  - repeat split; auto. eapply H; eauto.
  - simpl. unfold fullName; simpl. rewrite lookup_insert_eq.
    repeat split; auto.
    + intros key l Hk. simpl in *. rewrite length_app; simpl.
      destruct (decide (fullNameByNameAndVersion name version = key)) as [Heq|Hne].
      * rewrite Heq, lookup_insert_eq in Hk. inversion Hk. lia.
      * rewrite lookup_insert_ne in Hk by done. apply H in Hk. lia.
    + simpl. rewrite length_app; simpl. lia.
Qed.

(** ** Properties *)

Lemma own_entry_None {A} key (entries : list (string * A)) :
  key ∉ keys entries -> own_entry key entries = None.
Proof.
  unfold keys. induction entries as [|[k v] rest IH]; simpl; intros Hk; [done|].
  destruct (String.eqb_spec k key) as [->|Hne].
  - exfalso. apply Hk. left.
  - apply IH. intros Hin. apply Hk. right. exact Hin.
Qed.

Lemma own_entry_first {A} key (v : A) pre post :
  key ∉ keys pre -> own_entry key (pre ++ (key, v) :: post) = Some v.
Proof.
  unfold keys. induction pre as [|[k x] pre IH]; simpl; intros Hk.
  - rewrite String.eqb_refl. reflexivity.
  - destruct (String.eqb_spec k key) as [->|Hne].
    + exfalso. apply Hk. left.
    + apply IH. intros Hin. apply Hk. right. exact Hin.
Qed.

(** The three cases of the property read. *)
Lemma get_entry_own key v pre post :
  key ∉ keys pre -> get_entry key (pre ++ (key, v) :: post) = Some v.
Proof. intros Hk. unfold get_entry. rewrite own_entry_first by exact Hk. reflexivity. Qed.

Lemma get_entry_inherited key entries :
  key ∉ keys entries -> key ∈ Object_prototype_keys ->
  get_entry key entries = Some inherited_value.
Proof.
  intros Hk Hp. unfold get_entry. rewrite own_entry_None by exact Hk.
  rewrite bool_decide_eq_true_2 by exact Hp. reflexivity.
Qed.

Lemma get_entry_undefined key entries :
  key ∉ keys entries -> key ∉ Object_prototype_keys ->
  get_entry key entries = None.
Proof.
  intros Hk Hp. unfold get_entry. rewrite own_entry_None by exact Hk.
  rewrite bool_decide_eq_false_2 by exact Hp. reflexivity.
Qed.

Lemma truthy_ne s : s <> "" -> truthy s = true.
Proof.
  intros H. unfold truthy. destruct (String.eqb_spec s ""); [done|reflexivity].
Qed.

(** A cached object without a versions object makes the same request throw
    a [TypeError]: the lookup reads a property of [undefined]. *)
Lemma apiRequest_cached_no_versions (E : Env) name version w cached :
  apiCache w !! name = Some cached ->
  api_versions cached = None ->
  version <> "" ->
  apiRequest E name (Some version) w = (Throw TypeError, w).
Proof.
  intros Hc Hv Hne. unfold apiRequest. rewrite Hc. simpl.
  rewrite (truthy_ne _ Hne), Hv. reflexivity.
Qed.

(** Seeding one specifier, then resolving it again. *)
Lemma fillCache_fromString (E : Env) (spec : string) (r : NpaResult) (w : World) :
  npmPackageArg E spec = Some r ->
  cache_valid w ->
  exists node w1,
    fillCacheByFullNames E [spec] w = (Ok tt, w1)
    /\ requests w1 = requests w
    /\ fromString E spec w1 = (Ok (Some node), w1)
    /\ resolved (deref w1 node) = true.
Proof.
  intros Hnpa Hwf.
  set (n := npa_name r). set (v := default "latest" (npa_fetchSpec r)).
  destruct (fromNameAndVersion_returns n v w) as (node & w' & Hnv).
  destruct (fromNameAndVersion_spec _ _ _ _ _ Hnv) as (Hc & Hr & _ & _ & Hv).
  destruct (Hv Hwf) as [_ Hlt].
  exists node,
    (with_cache (<[spec := node]> (cache (update node (set_resolved true) w')))
                (update node (set_resolved true) w')).
  split; [|split; [|split]].
  - simpl. unfold fromString, bind. rewrite Hnpa. fold n v. rewrite Hnv.
    reflexivity.
  - exact Hr.
  - unfold fromString, bind. rewrite Hnpa. fold n v.
    rewrite (fromNameAndVersion_cached n v _ node); [reflexivity|].
    simpl. destruct (decide (spec = fullNameByNameAndVersion n v)) as [->|Hne].
    + apply lookup_insert_eq.
    + rewrite lookup_insert_ne by done. exact Hc.
  - change (resolved (deref (update node (set_resolved true) w') node) = true).
    rewrite deref_update_same by exact Hlt. reflexivity.
Qed.

(** C7. After [fillCacheByFullNames(["left-pad@1.3.0"])], [fromString] of
    the same specifier returns an object whose [resolved] flag is set;
    the seeding adds no request to the log and the resolution changes
    nothing at all. The specifier parser is the environment's: it is
    assumed to split the specifier into the name and the version. *)
Theorem fillCache_leftpad_resolved (E : Env) (w : World) :
  npmPackageArg E "left-pad@1.3.0" = Some (mkNpa "left-pad" (Some "1.3.0")) ->
  cache_valid w ->
  exists node w1,
    fillCacheByFullNames E ["left-pad@1.3.0"] w = (Ok tt, w1)
    /\ requests w1 = requests w
    /\ fromString E "left-pad@1.3.0" w1 = (Ok (Some node), w1)
    /\ resolved (deref w1 node) = true.
Proof. intros Hnpa Hwf. exact (fillCache_fromString E _ _ w Hnpa Hwf). Qed.

Lemma fillCache_leftpad_resolved_witness :
  exists node w1,
    fillCacheByFullNames (Lib.env Fixture.net_down) ["left-pad@1.3.0"] emptyWorld
      = (Ok tt, w1)
    /\ requests w1 = requests emptyWorld
    /\ fromString (Lib.env Fixture.net_down) "left-pad@1.3.0" w1
       = (Ok (Some node), w1)
    /\ resolved (deref w1 node) = true.
Proof.
  apply (fillCache_leftpad_resolved (Lib.env Fixture.net_down) emptyWorld).
  - reflexivity.
  - intros key l H. simpl in H. rewrite lookup_empty in H. discriminate H.
Defined.

(** ** The retry loops *)

Lemma with_requests_id w : with_requests (requests w) w = w.
Proof. destruct w; reflexivity. Qed.

Lemma with_requests_twice r1 r2 w :
  with_requests r1 (with_requests r2 w) = with_requests r1 w.
Proof. reflexivity. Qed.

Lemma replicate_shift {A} k (x : A) l :
  replicate k x ++ x :: l = x :: replicate k x ++ l.
Proof. induction k as [|k IH]; simpl; [reflexivity|]. rewrite IH. reflexivity. Qed.

(** [k] retried attempts consume [k] passes of the loop and log [k]
    requests. *)
Lemma apiRequest_loop_retried E url k : forall remaining w,
  (forall i, i < k ->
     attempt_retried (fetch E (length (requests w) + i) url) = true) ->
  apiRequest_loop E (k + remaining) url w
  = apiRequest_loop E remaining url
      (with_requests (replicate k url ++ requests w) w).
Proof.
  induction k as [|k IH]; intros remaining w Hk.
  - simpl. rewrite with_requests_id. reflexivity.
  - assert (H0 := Hk 0 ltac:(lia)). rewrite Nat.add_0_r in H0.
    assert (Hstep : apiRequest_loop E (S k + remaining) url w
                    = apiRequest_loop E (k + remaining) url
                        (with_requests (url :: requests w) w)).
    { simpl. unfold attempt_retried in H0.
      destruct (fetch E (length (requests w)) url) as [r|]; [|reflexivity].
      apply andb_true_iff in H0 as [Hok Hj]. rewrite Hok. simpl.
      destruct (json r); [reflexivity|reflexivity|discriminate Hj]. }
    rewrite Hstep, IH.
    + simpl. rewrite replicate_shift. reflexivity.
    + intros i Hi. simpl.
      replace (S (length (requests w) + i)) with (length (requests w) + S i) by lia.
      apply Hk. lia.
Qed.

(** What the pass after them does with a response that is not [ok]. *)
Lemma apiRequest_loop_not_ok E url remaining w r :
  fetch E (length (requests w)) url = Some r ->
  ok r = false ->
  apiRequest_loop E (S remaining) url w
  = (Throw (ThrowStr (if Nat.eqb (status r) ClientErrorNotFound
                      then Errors.REGISTRY_ERROR else statusText r)),
     with_requests (url :: requests w) w).
Proof.
  intros Hf Hok. simpl. rewrite Hf, Hok. simpl.
  destruct (Nat.eqb (status r) ClientErrorNotFound); reflexivity.
Qed.

Lemma apiRequest_loop_value E url remaining w r body :
  fetch E (length (requests w)) url = Some r ->
  ok r = true ->
  json r = JsonValue body ->
  apiRequest_loop E (S remaining) url w
  = (Ok body, with_requests (url :: requests w) w).
Proof. intros Hf Hok Hj. simpl. rewrite Hf, Hok, Hj. reflexivity. Qed.

(** The uncached path of [apiRequest] requests [name/version], with the
    empty string for an absent version. *)
Lemma apiRequest_uncached E name version w :
  apiCache w !! name = None ->
  apiRequest E name version w
  = match apiRequest_loop E MAX_TRIES (registry_url name (default "" version)) w with
    | (Ok apiResponse, w1) =>
        if String.eqb (default "" version) ""
        then (Ok (Some apiResponse),
              with_apiCache (<[name := apiResponse]> (apiCache w1)) w1)
        else (Ok (Some apiResponse), w1)
    | (Throw e, w1) => (Throw e, w1)
    | (OutOfFuel, w1) => (OutOfFuel, w1)
    end.
Proof.
  intros Hc. unfold apiRequest. rewrite Hc.
  assert (Hv : (if truthy_opt version then default "" version else "")
               = default "" version).
  { destruct version as [v|]; simpl; [|reflexivity].
    unfold truthy. destruct (String.eqb_spec v ""); simpl; congruence. }
  rewrite Hv. reflexivity.
Qed.

(** C4 (amended). For a name that is not in [apiCache]: a rejected request,
    and an unreadable or falsy body, count as one attempt each and are
    retried at once. Fewer than [MAX_TRIES] of them followed by a good
    response make [apiRequest] return that response; [MAX_TRIES] = 10 of
    them in a row make it throw [TOO_MANY_FAILURES], after exactly ten
    requests. A response with a non-success status other than 404 is not
    retried: [apiRequest] throws its status text on the attempt that
    receives it. *)
Theorem apiRequest_failures (E : Env) (name : string) (version : option string)
    (w : World) (k : nat) :
  let url := registry_url name (default "" version) in
  apiCache w !! name = None ->
  (forall i, i < k ->
     attempt_retried (fetch E (length (requests w) + i) url) = true) ->
  (k = MAX_TRIES ->
   apiRequest E name version w
   = (Throw (ThrowStr Errors.TOO_MANY_FAILURES),
      with_requests (replicate MAX_TRIES url ++ requests w) w))
  /\ (k < MAX_TRIES ->
      forall r, fetch E (length (requests w) + k) url = Some r ->
      ok r = false ->
      status r <> ClientErrorNotFound ->
      apiRequest E name version w
      = (Throw (ThrowStr (statusText r)),
         with_requests (replicate (S k) url ++ requests w) w))
  /\ (k < MAX_TRIES ->
      forall r body, fetch E (length (requests w) + k) url = Some r ->
      ok r = true ->
      json r = JsonValue body ->
      (apiRequest E name version w).1 = Ok (Some body)
      /\ requests (apiRequest E name version w).2
         = replicate (S k) url ++ requests w).
Proof.
  intros url Hc Hk. split; [|split]; cycle 2.
  - intros Hlt r body Hf Hok Hj. rewrite apiRequest_uncached by exact Hc.
    fold url.
    replace MAX_TRIES with (k + S (MAX_TRIES - S k)) by lia.
    rewrite apiRequest_loop_retried by exact Hk.
    rewrite (apiRequest_loop_value _ _ _ _ r body).
    + destruct (String.eqb (default "" version) ""); split; reflexivity.
    + simpl. rewrite length_app, length_replicate, Nat.add_comm. exact Hf.
    + exact Hok.
    + exact Hj.
  - intros ->. rewrite apiRequest_uncached by exact Hc. fold url.
    replace MAX_TRIES with (MAX_TRIES + 0) at 1 by lia.
    rewrite apiRequest_loop_retried by exact Hk. reflexivity.
  - intros Hlt r Hf Hok Hst. rewrite apiRequest_uncached by exact Hc. fold url.
    replace MAX_TRIES with (k + S (MAX_TRIES - S k)) by lia.
    rewrite apiRequest_loop_retried by exact Hk.
    rewrite (apiRequest_loop_not_ok _ _ _ _ r).
    + apply Nat.eqb_neq in Hst. rewrite Hst. reflexivity.
    + simpl. rewrite length_app, length_replicate, Nat.add_comm. exact Hf.
    + exact Hok.
Qed.

Lemma apiRequest_failures_witness :
  apiRequest (Lib.env Fixture.net_down) "dep" (Some "1.0.0") emptyWorld
  = (Throw (ThrowStr Errors.TOO_MANY_FAILURES),
     with_requests
       (replicate MAX_TRIES (registry_url "dep" "1.0.0") ++ requests emptyWorld)
       emptyWorld)
  /\ apiRequest (Lib.env Fixture.net_500) "dep" (Some "1.0.0") emptyWorld
     = (Throw (ThrowStr "Internal Server Error"),
        with_requests
          (replicate 1 (registry_url "dep" "1.0.0") ++ requests emptyWorld)
          emptyWorld)
  /\ (apiRequest (Lib.env Fixture.net_dep) "dep" None emptyWorld).1
     = Ok (Some Fixture.dep_packument).
Proof.
  split; [|split]; cycle 2.
  - refine (proj1 (proj2 (proj2 (apiRequest_failures (Lib.env Fixture.net_dep)
                     "dep" None emptyWorld 0 _ _)) _
                  (Fixture.respond Fixture.dep_packument)
                  Fixture.dep_packument _ _ _)).
    + apply lookup_empty.
    + intros i Hi. lia.
    + unfold MAX_TRIES. lia.
    + reflexivity.
    + reflexivity.
    + reflexivity.
  - refine (proj1 (apiRequest_failures (Lib.env Fixture.net_down) "dep"
                     (Some "1.0.0") emptyWorld MAX_TRIES _ _) _).
    + apply lookup_empty.
    + intros i _. reflexivity.
    + reflexivity.
  - refine (proj1 (proj2 (apiRequest_failures (Lib.env Fixture.net_500) "dep"
                     (Some "1.0.0") emptyWorld 0 _ _)) _
                  Fixture.server_error _ _ _).
    + apply lookup_empty.
    + intros i Hi. lia.
    + unfold MAX_TRIES. lia.
    + reflexivity.
    + reflexivity.
    + unfold ClientErrorNotFound. simpl. lia.
Defined.

(** C4, as stated, fails: a registry that answers 500 is asked once, and
    [apiRequest] throws the status text, not [TOO_MANY_FAILURES]. *)
Lemma apiRequest_server_error_not_retried :
  exists w',
    apiRequest (Lib.env Fixture.net_500) "dep" (Some "1.0.0") emptyWorld
    = (Throw (ThrowStr "Internal Server Error"), w')
    /\ length (requests w') = 1
    /\ ThrowStr "Internal Server Error" <> ThrowStr Errors.TOO_MANY_FAILURES.
Proof.
  eexists. split; [vm_compute; reflexivity|]. split; [reflexivity|].
  discriminate.
Qed.

(** C5. When the metadata request of a node is answered with status 404
    (after fewer than [MAX_TRIES] retried attempts), [getDependencies]
    returns the empty array and throws nothing; the node's [error] flag and
    its [dependencies] are what they were, and the only changes are the
    [loading] flag and the logged requests. *)
Theorem getDependencies_not_found (E : Env) (fuel : nat) (this : loc)
    (w : World) (k : nat) (r : Response) :
  let url := registry_url (name (deref w this)) (version (deref w this)) in
  apiCache w !! name (deref w this) = None ->
  k < MAX_TRIES ->
  (forall i, i < k ->
     attempt_retried (fetch E (length (requests w) + i) url) = true) ->
  fetch E (length (requests w) + k) url = Some r ->
  status r = ClientErrorNotFound ->
  exists w',
    getDependencies E fuel this w = (Ok [], w')
    /\ w' = with_requests (replicate (S k) url ++ requests w)
              (update this (set_loading true) w)
    /\ error (deref w' this) = error (deref w this)
    /\ dependencies (deref w' this) = dependencies (deref w this).
Proof.
  intros url Hc Hlt Hk Hf Hst.
  eexists. split; [|split; [reflexivity|]].
  - unfold getDependencies.
    rewrite !(deref_update_field name), !(deref_update_field version)
      by reflexivity.
    rewrite apiRequest_uncached by exact Hc. simpl default. fold url.
    replace MAX_TRIES with (k + S (MAX_TRIES - S k)) by lia.
    rewrite apiRequest_loop_retried by exact Hk.
    rewrite (apiRequest_loop_not_ok _ _ _ _ r).
    + rewrite Hst. simpl. reflexivity.
    + simpl. rewrite length_app, length_replicate, Nat.add_comm. exact Hf.
    + unfold ok. rewrite Hst. reflexivity.
  - split.
    + apply (deref_update_field error (with_requests _ w)). reflexivity.
    + apply (deref_update_field dependencies (with_requests _ w)). reflexivity.
Qed.

Lemma getDependencies_not_found_witness :
  exists w',
    getDependencies (Lib.env Fixture.net_404) 0 0
      (with_heap [new_Package "dep" (Some "1.0.0")] emptyWorld) = (Ok [], w')
    /\ error (deref w' 0) = false.
Proof.
  destruct (getDependencies_not_found (Lib.env Fixture.net_404) 0 0
              (with_heap [new_Package "dep" (Some "1.0.0")] emptyWorld)
              0 Fixture.not_found)
    as (w' & Hrun & _ & Herr & _).
  - apply lookup_empty.
  - unfold MAX_TRIES. lia.
  - intros i Hi. lia.
  - reflexivity.
  - reflexivity.
  - exists w'. split; [exact Hrun|]. rewrite Herr. reflexivity.
Defined.

Lemma download_loop_retried E url k : forall remaining w,
  (forall i, i < k ->
     download_retried (fetch E (length (requests w) + i) url) = true) ->
  download_loop E (k + remaining) url w
  = download_loop E remaining url
      (with_requests (replicate k url ++ requests w) w).
Proof.
  induction k as [|k IH]; intros remaining w Hk.
  - simpl. rewrite with_requests_id. reflexivity.
  - assert (H0 := Hk 0 ltac:(lia)). rewrite Nat.add_0_r in H0.
    assert (Hstep : download_loop E (S k + remaining) url w
                    = download_loop E (k + remaining) url
                        (with_requests (url :: requests w) w)).
    { simpl. unfold download_retried in H0.
      destruct (fetch E (length (requests w)) url) as [r|]; [|reflexivity].
      destruct (buffer r); [discriminate H0|reflexivity]. }
    rewrite Hstep, IH.
    + simpl. rewrite replicate_shift. reflexivity.
    + intros i Hi. simpl.
      replace (S (length (requests w) + i)) with (length (requests w) + S i) by lia.
      apply Hk. lia.
Qed.


Lemma tgzFileName_set E p url :
  tarballURL p = Some url -> url <> "" ->
  tgzFileName E p = Some (path_basename E url).
Proof.
  intros Hu Hne. unfold tgzFileName. rewrite Hu. simpl.
  rewrite (truthy_ne _ Hne). reflexivity.
Qed.

(** [download] past its guard. *)
Lemma download_guard_passed E this w url :
  tarballURL (deref w this) = Some url ->
  url <> "" ->
  path_basename E url <> "" ->
  download E this w
  = (let* tgzFileData := download_loop E MAX_TRIES url in
     writeFileSync (path_resolve E (process_cwd E) (path_basename E url))
                   tgzFileData) w.
Proof.
  intros Hu Hne Hb. unfold download.
  rewrite (tgzFileName_set E _ url Hu Hne), Hu. cbn [truthy_opt default].
  rewrite (truthy_ne _ Hne), (truthy_ne _ Hb). reflexivity.
Qed.

(** C9. [download] does not read the status of the response: whatever the
    status, the first response whose body can be read (after fewer than
    [MAX_TRIES] rejected attempts) ends the loop, and its bytes are written
    to [path.resolve(process.cwd(), tgzFileName)]. *)
Theorem download_ignores_status (E : Env) (this : loc) (w : World)
    (url : string) (k : nat) (r : Response) (data : list Byte.byte) :
  tarballURL (deref w this) = Some url ->
  url <> "" ->
  path_basename E url <> "" ->
  k < MAX_TRIES ->
  (forall i, i < k ->
     download_retried (fetch E (length (requests w) + i) url) = true) ->
  fetch E (length (requests w) + k) url = Some r ->
  buffer r = Some data ->
  download E this w
  = (Ok tt,
     with_files
       ((path_resolve E (process_cwd E) (path_basename E url), data) :: files w)
       (with_requests (replicate (S k) url ++ requests w) w)).
Proof.
  intros Hu Hne Hb Hlt Hk Hf Hbuf.
  rewrite (download_guard_passed E this w url Hu Hne Hb). unfold bind.
  replace MAX_TRIES with (k + S (MAX_TRIES - S k)) by lia.
  rewrite download_loop_retried by exact Hk.
  simpl download_loop. simpl requests.
  rewrite length_app, length_replicate, (Nat.add_comm k), Hf, Hbuf.
  reflexivity.
Qed.

Lemma download_ignores_status_witness :
  status Fixture.not_found = 404
  /\ download (Lib.env Fixture.net_404) 0 Fixture.with_tarball
     = (Ok tt,
        with_files
          [("/work/left-pad-1.3.0.tgz", [Byte.x34; Byte.x30; Byte.x34])]
          (with_requests
             ["https://registry.npmjs.org/left-pad/-/left-pad-1.3.0.tgz"]
             Fixture.with_tarball)).
Proof.
  split; [reflexivity|].
  refine (download_ignores_status (Lib.env Fixture.net_404) 0
            Fixture.with_tarball
            "https://registry.npmjs.org/left-pad/-/left-pad-1.3.0.tgz"
            0 Fixture.not_found [Byte.x34; Byte.x30; Byte.x34] _ _ _ _ _ _ _).
  - reflexivity.
  - discriminate.
  - vm_compute. discriminate.
  - unfold MAX_TRIES. lia.
  - intros i Hi. lia.
  - reflexivity.
  - reflexivity.
Defined.

(** ** The version resolver *)

(** The object that [fromNameAndVersion] constructs on a cache miss. *)
Lemma fromNameAndVersion_fresh name version w :
  cache w !! fullNameByNameAndVersion name version = None ->
  exists w',
    fromNameAndVersion name version w = (Ok (length (heap w)), w')
    /\ deref w' (length (heap w)) = new_Package name (Some version).
Proof.
  intros Hc. unfold fromNameAndVersion. rewrite Hc. eexists. split; [reflexivity|].
  unfold deref; simpl. apply list_lookup_total_correct.
  rewrite lookup_app_r by lia. rewrite Nat.sub_diag. reflexivity.
Qed.

(** The two branches of [resolveVersion] that do not touch the registry. *)
Lemma resolveVersion_star E name w :
  resolveVersion E name "*" w = (Ok "latest", w).
Proof. reflexivity. Qed.

Lemma resolveVersion_coerce E name semanticVersion w :
  semanticVersion <> "*" ->
  includes semanticVersion "<" || includes semanticVersion "-" = false ->
  resolveVersion E name semanticVersion w
  = (Ok (default "latest" (semver_coerce E semanticVersion)), w).
Proof.
  intros Hne Hinc. unfold resolveVersion.
  destruct (String.eqb_spec semanticVersion "*"); [done|].
  rewrite Hinc. reflexivity.
Qed.

(** The branch that asks the registry. *)
Lemma resolveVersion_range E name semanticVersion w :
  semanticVersion <> "*" ->
  includes semanticVersion "<" || includes semanticVersion "-" = true ->
  resolveVersion E name semanticVersion w
  = match apiRequest E name None w with
    | (Ok (Some r), w1) =>
        match api_versions r with
        | Some versions =>
            (Ok (default "latest"
                   (semver_maxSatisfying E (keys versions) semanticVersion)), w1)
        | None => (Throw TypeError, w1)
        end
    | (Ok None, w1) => (Throw TypeError, w1)
    | (Throw e, w1) => (Throw e, w1)
    | (OutOfFuel, w1) => (OutOfFuel, w1)
    end.
Proof.
  intros Hne Hinc. unfold resolveVersion.
  destruct (String.eqb_spec semanticVersion "*"); [done|].
  rewrite Hinc. unfold bind.
  destruct (apiRequest E name None w) as [[[r|]| |] w1]; try reflexivity.
  destruct (api_versions r); reflexivity.
Qed.

Lemma fromSemanticVersion_resolved E name semanticVersion version w w1 :
  resolveVersion E name semanticVersion w = (Ok version, w1) ->
  fromSemanticVersion E name semanticVersion w = fromNameAndVersion name version w1.
Proof. intros H. unfold fromSemanticVersion, bind. rewrite H. reflexivity. Qed.

(** C6 (amended). [fromSemanticVersion] cannot fail when the specifier is
    [*] or contains neither [<] nor [-]: it returns, without a request, the
    object cached for the name at [latest], respectively at the coerced
    version or [latest] when the specifier cannot be coerced. When the
    specifier contains [<] or [-], it throws whatever the unscoped
    [apiRequest] throws, and throws a [TypeError] when the response has no
    versions object; otherwise it returns the object for the greatest
    satisfying version, or for [latest] when no version satisfies. *)
Theorem fromSemanticVersion_outcomes (E : Env) (name semanticVersion : string)
    (w : World) :
  (semanticVersion = "*"
   \/ includes semanticVersion "<" || includes semanticVersion "-" = false ->
   exists node w',
     fromSemanticVersion E name semanticVersion w = (Ok node, w')
     /\ requests w' = requests w
     /\ cache w' !! fullNameByNameAndVersion name
                      (if String.eqb semanticVersion "*" then "latest"
                       else default "latest" (semver_coerce E semanticVersion))
        = Some node)
  /\ (semanticVersion <> "*" ->
      includes semanticVersion "<" || includes semanticVersion "-" = true ->
      forall out w1, apiRequest E name None w = (out, w1) ->
      match out with
      | Ok (Some r) =>
          match api_versions r with
          | Some versions =>
              exists node w',
                fromSemanticVersion E name semanticVersion w = (Ok node, w')
                /\ cache w' !! fullNameByNameAndVersion name
                                 (default "latest"
                                    (semver_maxSatisfying E (keys versions)
                                       semanticVersion))
                   = Some node
          | None =>
              fromSemanticVersion E name semanticVersion w = (Throw TypeError, w1)
          end
      | Ok None =>
          fromSemanticVersion E name semanticVersion w = (Throw TypeError, w1)
      | Throw e => fromSemanticVersion E name semanticVersion w = (Throw e, w1)
      | OutOfFuel => fromSemanticVersion E name semanticVersion w = (OutOfFuel, w1)
      end).
Proof.
  split.
  - intros Hcase.
    set (v := if String.eqb semanticVersion "*" then "latest"
              else default "latest" (semver_coerce E semanticVersion)).
    assert (Hres : resolveVersion E name semanticVersion w = (Ok v, w)).
    { subst v. destruct (String.eqb_spec semanticVersion "*") as [->|Hne].
      - apply resolveVersion_star.
      - destruct Hcase as [Hs|Hinc]; [done|].
        apply resolveVersion_coerce; assumption. }
    rewrite (fromSemanticVersion_resolved _ _ _ _ _ _ Hres).
    destruct (fromNameAndVersion_returns name v w) as (node & w' & Hnv).
    destruct (fromNameAndVersion_spec _ _ _ _ _ Hnv) as (Hc & Hr & _).
    exists node, w'. auto.
  - intros Hne Hinc out w1 Hreq.
    assert (Hres := resolveVersion_range E name semanticVersion w Hne Hinc).
    rewrite Hreq in Hres.
    destruct out as [[r|]| |].
    + destruct (api_versions r) as [versions|].
      * rewrite (fromSemanticVersion_resolved _ _ _ _ _ _ Hres).
        destruct (fromNameAndVersion_returns name
                    (default "latest"
                       (semver_maxSatisfying E (keys versions) semanticVersion)) w1)
          as (node & w' & Hnv).
        destruct (fromNameAndVersion_spec _ _ _ _ _ Hnv) as (Hc & _).
        exists node, w'. auto.
      * unfold fromSemanticVersion, bind. rewrite Hres. reflexivity.
    + unfold fromSemanticVersion, bind. rewrite Hres. reflexivity.
    + unfold fromSemanticVersion, bind. rewrite Hres. reflexivity.
    + unfold fromSemanticVersion, bind. rewrite Hres. reflexivity.
Qed.

Lemma fromSemanticVersion_outcomes_witness :
  (exists node w',
     fromSemanticVersion (Lib.env Fixture.net_404) "dep" "*" emptyWorld
     = (Ok node, w')
     /\ requests w' = requests emptyWorld
     /\ cache w' !! fullNameByNameAndVersion "dep" "latest" = Some node)
  /\ fromSemanticVersion (Lib.env Fixture.net_404) "dep" "<2.0.0" emptyWorld
     = (Throw (ThrowStr Errors.REGISTRY_ERROR),
        with_requests [registry_url "dep" ""] emptyWorld).
Proof.
  split.
  - apply (proj1 (fromSemanticVersion_outcomes (Lib.env Fixture.net_404)
                    "dep" "*" emptyWorld)).
    left. reflexivity.
  - refine (proj2 (fromSemanticVersion_outcomes (Lib.env Fixture.net_404)
                     "dep" "<2.0.0" emptyWorld) _ _
                  (Throw (ThrowStr Errors.REGISTRY_ERROR))
                  (with_requests [registry_url "dep" ""] emptyWorld) _).
    + discriminate.
    + reflexivity.
    + vm_compute. reflexivity.
Defined.

(** C6, as stated, fails: for a range with [<] and a registry that answers
    404, [fromSemanticVersion] throws instead of returning a node. *)
Lemma fromSemanticVersion_can_throw :
  exists e w',
    fromSemanticVersion (Lib.env Fixture.net_404) "dep" "<2.0.0" emptyWorld
    = (Throw e, w').
Proof. eexists. eexists. vm_compute. reflexivity. Qed.

(** C3 (amended). Over the reference [semver], whatever the registry
    publishes, the specifier [^3.0.0] resolves to [3.0.0], its coercion,
    and no request is made: it has neither [<] nor [-]. With the versions
    3.0.0, 3.9.3 and 4.0.0 published, it is a specifier with a comparator,
    [>=3.0.0 <4.0.0], that resolves to 3.9.3, the greatest published
    version in the range, after one unscoped request. *)
Theorem caret_specifier_is_coerced :
  (forall net name w,
     resolveVersion (Lib.env net) name "^3.0.0" w = (Ok "3.0.0", w)
     /\ fromSemanticVersion (Lib.env net) name "^3.0.0" w
        = fromNameAndVersion name "3.0.0" w)
  /\ (exists node w',
        fromSemanticVersion (Lib.env Fixture.net_dep) "dep" "^3.0.0" emptyWorld
        = (Ok node, w')
        /\ version (deref w' node) = "3.0.0"
        /\ requests w' = [])
  /\ (exists node w',
        fromSemanticVersion (Lib.env Fixture.net_dep) "dep" ">=3.0.0 <4.0.0"
          emptyWorld
        = (Ok node, w')
        /\ version (deref w' node) = "3.9.3"
        /\ requests w' = [registry_url "dep" ""]).
Proof.
  split; [|split].
  - intros net name w.
    assert (H : resolveVersion (Lib.env net) name "^3.0.0" w = (Ok "3.0.0", w))
      by reflexivity.
    split; [exact H|]. apply (fromSemanticVersion_resolved _ _ _ _ _ _ H).
  - eexists. eexists. split; [vm_compute; reflexivity|].
    split; reflexivity.
  - eexists. eexists. split; [vm_compute; reflexivity|].
    split; reflexivity.
Qed.

(** C3, as stated, fails: with 3.0.0, 3.9.3 and 4.0.0 published, the node
    returned for [^3.0.0] does not have version 3.9.3. *)
Lemma caret_specifier_not_max_satisfying :
  exists node w',
    fromSemanticVersion (Lib.env Fixture.net_dep) "dep" "^3.0.0" emptyWorld
    = (Ok node, w')
    /\ (keys <$> api_versions Fixture.dep_packument)
       = Some ["3.0.0"; "3.9.3"; "4.0.0"]
    /\ version (deref w' node) <> "3.9.3".
Proof.
  eexists. eexists. split; [vm_compute; reflexivity|].
  split; [reflexivity|]. vm_compute. discriminate.
Qed.

(** ** Cycle breaking *)

(** More fuel does not change an answer of [isAncestorEqual]. *)
Lemma some_of_mono {A} (f g : A -> option bool) l b :
  (forall x c, f x = Some c -> g x = Some c) ->
  some_of f l = Some b -> some_of g l = Some b.
Proof.
  intros Hfg. induction l as [|x l IH]; simpl; [done|].
  destruct (f x) as [[|]|] eqn:Hx; intros H; try discriminate H.
  - rewrite (Hfg _ _ Hx). exact H.
  - rewrite (Hfg _ _ Hx). apply IH, H.
Qed.

Lemma isAncestorEqual_fuel_mono w : forall fuel this pkg b,
  isAncestorEqual fuel w this pkg = Some b ->
  isAncestorEqual (S fuel) w this pkg = Some b.
Proof.
  induction fuel as [|fuel IH]; intros this pkg b H; [discriminate H|].
  change (isAncestorEqual (S fuel) w this pkg) with
    (if isEqual (deref w pkg) (deref w this) then Some true
     else if isRoot (deref w this) then Some false
     else some_of (fun dependent => isAncestorEqual fuel w dependent pkg)
                  (dependents (deref w this))) in H.
  change (isAncestorEqual (S (S fuel)) w this pkg) with
    (if isEqual (deref w pkg) (deref w this) then Some true
     else if isRoot (deref w this) then Some false
     else some_of (fun dependent => isAncestorEqual (S fuel) w dependent pkg)
                  (dependents (deref w this))).
  destruct (isEqual (deref w pkg) (deref w this)); [exact H|].
  destruct (isRoot (deref w this)); [exact H|].
  revert H. apply some_of_mono. intros x c. apply IH.
Qed.

(** [isAncestorEqual] of a node with itself answers [true] at once. *)
Lemma isAncestorEqual_refl fuel w this :
  isAncestorEqual (S fuel) w this this = Some true.
Proof. simpl. unfold isEqual. rewrite String.eqb_refl. reflexivity. Qed.

(** A first attempt that succeeds, for a request with a version. *)
Lemma apiRequest_fetched E name version w r j :
  apiCache w !! name = None ->
  version <> "" ->
  fetch E (length (requests w)) (registry_url name version) = Some r ->
  ok r = true ->
  json r = JsonValue j ->
  apiRequest E name (Some version) w
  = (Ok (Some j), with_requests (registry_url name version :: requests w) w).
Proof.
  intros Hc Hv Hf Hok Hj. rewrite apiRequest_uncached by exact Hc.
  change (default "" (Some version)) with version. unfold MAX_TRIES.
  rewrite (apiRequest_loop_value _ _ _ _ r j Hf Hok Hj).
  destruct (String.eqb_spec version ""); [done|reflexivity].
Qed.

Section MutualDependency.

(** Package [a] at version [va] lists [b] with a specifier that resolves to
    [vb], and [b] at [vb] lists [a] with one that resolves to [va]; the
    registry answers both requests. *)
Variable E : Env.
Variables a va b vb sa sb : string.
Variables ra rb : Response.
Variables ja jb : APIResponse.

Hypothesis Hva : va <> "".
Hypothesis Hvb : vb <> "".
Hypothesis Hdistinct :
  fullNameByNameAndVersion a va <> fullNameByNameAndVersion b vb.
Hypothesis Hfa : forall n, fetch E n (registry_url a va) = Some ra.
Hypothesis Hoka : ok ra = true.
Hypothesis Hja : json ra = JsonValue ja.
Hypothesis Hda : api_dependencies ja = Some [(b, sb)].
Hypothesis Hfb : forall n, fetch E n (registry_url b vb) = Some rb.
Hypothesis Hokb : ok rb = true.
Hypothesis Hjb : json rb = JsonValue jb.
Hypothesis Hdb : api_dependencies jb = Some [(a, sa)].
Hypothesis Hsb : forall w, resolveVersion E b sb w = (Ok vb, w).
Hypothesis Hsa : forall w, resolveVersion E a sa w = (Ok va, w).

Local Ltac world := cbv beta iota zeta delta
  [update with_heap with_cache with_requests with_apiCache with_files heap
   cache apiCache requests files emptyWorld alter list_alter deref lookup_total
   list_lookup_total name version dependents dependencies error loading
   resolved tarballURL set_loading set_tarballURL set_dependents
   set_dependencies set_error new_Package default from_option id length app
   fullName isRoot includes_loc existsb Nat.eqb some_of isEqual negb orb andb
   fst snd].

Lemma eqb_fullName_ab :
  String.eqb (fullNameByNameAndVersion a va) (fullNameByNameAndVersion b vb)
  = false.
Proof. apply String.eqb_neq. exact Hdistinct. Qed.

Lemma eqb_fullName_ba :
  String.eqb (fullNameByNameAndVersion b vb) (fullNameByNameAndVersion a va)
  = false.
Proof. apply String.eqb_neq. intros H. apply Hdistinct. symmetry. exact H. Qed.

(** C2. Starting from an empty process, with the node [A] for [a@va]
    created first: expanding [A] returns [[B]], the node of [b@vb], and
    records [A] as a dependent of [B]; expanding [B] then returns the empty
    array without throwing, because [A] is found among the ancestors of
    [B]. At the end [A.dependencies] is [[B]], [B.dependencies] is empty
    and neither node is flagged in error. Any recursion budget of at least
    two suffices. *)
Theorem mutual_dependency_edge_dropped (fuel : nat) :
  2 <= fuel ->
  exists A B w1 w2 w3,
    fromNameAndVersion a va emptyWorld = (Ok A, w1)
    /\ getDependencies E fuel A w1 = (Ok [B], w2)
    /\ dependents (deref w2 B) = [A]
    /\ isAncestorEqual fuel w2 B A = Some true
    /\ getDependencies E fuel B w2 = (Ok [], w3)
    /\ A <> B
    /\ fullName (deref w3 A) = fullNameByNameAndVersion a va
    /\ fullName (deref w3 B) = fullNameByNameAndVersion b vb
    /\ dependencies (deref w3 A) = [B]
    /\ dependencies (deref w3 B) = []
    /\ error (deref w3 A) = false
    /\ error (deref w3 B) = false.
Proof.
  intros Hfuel. destruct fuel as [|[|fuel]]; [lia|lia|]. clear Hfuel.
  exists 0, 1. eexists. eexists. eexists.
  split.
  { unfold fromNameAndVersion. cbn [cache emptyWorld]. rewrite lookup_empty.
    world. reflexivity. }
  split.
  { unfold getDependencies. world.
    rewrite (apiRequest_fetched _ _ _ _ ra ja);
      [|apply lookup_empty|exact Hva|apply Hfa|exact Hoka|exact Hja].
    world. rewrite Hda.
    cbn [getDependencies_loop]. unfold bind at 1.
    rewrite (fromSemanticVersion_resolved _ _ _ _ _ _ (Hsb _)).
    unfold fromNameAndVersion. world.
    rewrite lookup_insert_ne by exact Hdistinct. rewrite lookup_empty.
    world.
    unfold bind at 1. unfold isAncestorEqualM. cbn [isAncestorEqual]. world.
    rewrite ?eqb_fullName_ab, ?eqb_fullName_ba. world.
    unfold bind, addDependent, ret. world. reflexivity. }
  split; [reflexivity|].
  split.
  { cbn [isAncestorEqual]. world.
    rewrite ?eqb_fullName_ab, ?eqb_fullName_ba. world.
    rewrite String.eqb_refl. reflexivity. }
  split.
  { unfold getDependencies. world.
    rewrite (apiRequest_fetched _ _ _ _ rb jb);
      [|apply lookup_empty|exact Hvb|apply Hfb|exact Hokb|exact Hjb].
    world. rewrite Hdb.
    cbn [getDependencies_loop]. unfold bind at 1.
    rewrite (fromSemanticVersion_resolved _ _ _ _ _ _ (Hsa _)).
    unfold fromNameAndVersion. world.
    rewrite lookup_insert_ne
      by (intros H; apply Hdistinct; symmetry; exact H).
    rewrite lookup_insert_eq.
    unfold bind at 1. unfold isAncestorEqualM. cbn [isAncestorEqual]. world.
    rewrite ?eqb_fullName_ab, ?eqb_fullName_ba. world.
    rewrite String.eqb_refl.
    unfold ret. world. reflexivity. }
  split; [lia|].
  repeat split; reflexivity.
Qed.

End MutualDependency.

Lemma mutual_dependency_edge_dropped_witness :
  exists w3,
    (let* A := fromNameAndVersion "a" "1.0.0" in
     let* _ := getDependencies (Lib.env Fixture.net_cycle) 2 A in
     let* _ := getDependencies (Lib.env Fixture.net_cycle) 2 1 in
     ret A) emptyWorld = (Ok 0, w3)
    /\ dependencies (deref w3 0) = [1]
    /\ dependencies (deref w3 1) = [].
Proof.
  destruct (mutual_dependency_edge_dropped (Lib.env Fixture.net_cycle)
              "a" "1.0.0" "b" "1.0.0" "1.0.0" "1.0.0"
              (Fixture.respond (Fixture.manifest [("b", "1.0.0")]))
              (Fixture.respond (Fixture.manifest [("a", "1.0.0")]))
              (Fixture.manifest [("b", "1.0.0")])
              (Fixture.manifest [("a", "1.0.0")])
              ltac:(discriminate) ltac:(discriminate) ltac:(discriminate)
              (fun _ => eq_refl) eq_refl eq_refl eq_refl
              (fun _ => eq_refl) eq_refl eq_refl eq_refl
              (fun _ => eq_refl) (fun _ => eq_refl)
              2 (le_n 2))
    as (A & B & w1 & w2 & w3 & H1 & H2 & _ & _ & H3 & _ & _ & _ & HA & HB & _).
  exists w3.
  assert (HA0 : A = 0) by (vm_compute in H1; congruence).
  subst A.
  assert (HB1 : B = 1).
  { assert (Hw1 : w1 = snd (fromNameAndVersion "a" "1.0.0" emptyWorld))
      by (rewrite H1; reflexivity).
    subst w1. vm_compute in H2. congruence. }
  subst B.
  split; [|split; [exact HA|exact HB]].
  unfold bind. rewrite H1, H2, H3. reflexivity.
Defined.

(** ** Further properties: dependents and ancestors *)

Lemma includes_loc_elem_of l x : includes_loc l x = true <-> x ∈ l.
Proof.
  unfold includes_loc. rewrite existsb_exists. split.
  - intros (y & Hin & Heq). apply Nat.eqb_eq in Heq. subst y.
    apply list_elem_of_In, Hin.
  - intros Hin. exists x. split; [apply list_elem_of_In, Hin|apply Nat.eqb_refl].
Qed.

Lemma includes_loc_false l x : includes_loc l x = false <-> x ∉ l.
Proof.
  rewrite <- includes_loc_elem_of. destruct (includes_loc l x); split; intros H;
    try reflexivity; try discriminate; try (intros H'; discriminate H').
  exfalso. apply H. reflexivity.
Qed.

(** On an existing node, the dependent is recorded after the call. *)
Lemma addDependent_member (this pkg : loc) (w : World) :
  this < length (heap w) ->
  exists w1,
    addDependent this pkg w = (Ok tt, w1)
    /\ pkg ∈ dependents (deref w1 this).
Proof.
  intros Hthis. unfold addDependent.
  destruct (includes_loc (dependents (deref w this)) pkg) eqn:Hin.
  - exists w. split; [reflexivity|]. apply includes_loc_elem_of, Hin.
  - eexists. split; [reflexivity|].
    rewrite deref_update_same by exact Hthis. cbn [dependents set_dependents].
    apply elem_of_app. right. apply list_elem_of_singleton. reflexivity.
Qed.

(** X1. [addDependent] records a dependent at most once: on an existing
    node the dependent is in the list afterwards, a list without
    duplicates stays without duplicates, and a second call with the same
    dependent changes nothing. *)
Theorem addDependent_once (this pkg : loc) (w : World) :
  this < length (heap w) ->
  exists w1,
    addDependent this pkg w = (Ok tt, w1)
    /\ pkg ∈ dependents (deref w1 this)
    /\ (NoDup (dependents (deref w this)) -> NoDup (dependents (deref w1 this)))
    /\ addDependent this pkg w1 = (Ok tt, w1).
Proof.
  intros Hthis. unfold addDependent.
  destruct (includes_loc (dependents (deref w this)) pkg) eqn:Hin.
  - exists w. rewrite Hin. apply includes_loc_elem_of in Hin. auto.
  - eexists. split; [reflexivity|].
    rewrite deref_update_same by exact Hthis. cbn [dependents set_dependents].
    assert (Hpkg : pkg ∈ dependents (deref w this) ++ [pkg])
      by (apply elem_of_app; right; apply list_elem_of_singleton; reflexivity).
    split; [exact Hpkg|]. split.
    + intros Hnd. apply NoDup_app. split; [exact Hnd|]. split.
      * intros x Hx Hx'. apply list_elem_of_singleton in Hx'. subst x.
        apply includes_loc_false in Hin. contradiction.
      * apply NoDup_singleton.
    + apply includes_loc_elem_of in Hpkg. rewrite Hpkg. reflexivity.
Qed.

Lemma addDependent_once_witness :
  exists w1,
    addDependent 1 0 chain_world = (Ok tt, w1)
    /\ dependents (deref w1 1) = [0].
Proof.
  destruct (addDependent_once 1 0 chain_world) as (w1 & Hrun & _ & _ & _).
  - simpl. lia.
  - exists w1. split; [exact Hrun|].
    vm_compute in Hrun. inversion Hrun. reflexivity.
Defined.

Lemma some_of_true {A} (f : A -> option bool) l :
  some_of f l = Some true -> exists x, x ∈ l /\ f x = Some true.
Proof.
  induction l as [|x l IH]; simpl; [discriminate|].
  destruct (f x) as [[|]|] eqn:Hx; intros H; try discriminate H.
  - exists x. split; [left|exact Hx].
  - destruct (IH H) as (y & Hy & Hfy). exists y. split; [right; exact Hy|exact Hfy].
Qed.

Lemma some_of_false {A} (f : A -> option bool) l :
  some_of f l = Some false -> forall x, x ∈ l -> f x = Some false.
Proof.
  induction l as [|x l IH]; simpl; intros H y Hy.
  - apply elem_of_nil in Hy. contradiction.
  - destruct (f x) as [[|]|] eqn:Hx; try discriminate H.
    apply elem_of_cons in Hy as [->|Hy]; [exact Hx|]. apply IH; assumption.
Qed.

Lemma some_of_total {A} (f : A -> option bool) l :
  (forall x, x ∈ l -> exists b, f x = Some b) -> exists b, some_of f l = Some b.
Proof.
  induction l as [|x l IH]; simpl; intros H; [eauto|].
  destruct (H x ltac:(left)) as [[|] Hx]; rewrite Hx; [eauto|].
  apply IH. intros y Hy. apply H. right. exact Hy.
Qed.

Lemma isAncestorEqual_unfold fuel w this pkg :
  isAncestorEqual (S fuel) w this pkg
  = if isEqual (deref w pkg) (deref w this) then Some true
    else if isRoot (deref w this) then Some false
    else some_of (fun dependent => isAncestorEqual fuel w dependent pkg)
                 (dependents (deref w this)).
Proof. reflexivity. Qed.

Lemma isRoot_true p : isRoot p = true -> dependents p = [].
Proof.
  unfold isRoot. intros H. apply Nat.eqb_eq in H.
  destruct (dependents p); [reflexivity|discriminate H].
Qed.

(** A negative answer of [isAncestorEqual] covers every ancestor. *)
Lemma isAncestorEqual_false_ancestors (w : World) :
  forall fuel this pkg,
  isAncestorEqual fuel w this pkg = Some false ->
  forall n, ancestor w this n -> fullName (deref w n) <> fullName (deref w pkg).
Proof.
  induction fuel as [|fuel IH]; intros this pkg H; [discriminate H|].
  rewrite isAncestorEqual_unfold in H. unfold isEqual in H.
  destruct (String.eqb_spec (fullName (deref w this)) (fullName (deref w pkg)))
    as [Heq|Hne]; [discriminate H|].
  intros n Hn. destruct (isRoot (deref w this)) eqn:Hroot.
  - apply isRoot_true in Hroot.
    inversion Hn as [|? d ? Hd _]; subst; [exact Hne|].
    rewrite Hroot in Hd. apply elem_of_nil in Hd. contradiction.
  - inversion Hn as [|? d ? Hd Hrest]; subst; [exact Hne|].
    apply (IH d pkg); [|exact Hrest]. eapply some_of_false in H; eassumption.
Qed.

(** X2. An answer of [isAncestorEqual] is about the nodes reached from
    [this] through [dependents]: [true] means that one of them has the full
    name of [pkg], [false] means that none of them has. *)
Theorem isAncestorEqual_decides_ancestors (w : World) :
  forall fuel this pkg b,
  isAncestorEqual fuel w this pkg = Some b ->
  if b
  then exists n, ancestor w this n
                 /\ fullName (deref w n) = fullName (deref w pkg)
  else forall n, ancestor w this n ->
                 fullName (deref w n) <> fullName (deref w pkg).
Proof.
  induction fuel as [|fuel IH]; intros this pkg b H; [discriminate H|].
  rewrite isAncestorEqual_unfold in H. unfold isEqual in H.
  destruct (String.eqb_spec (fullName (deref w this)) (fullName (deref w pkg)))
    as [Heq|Hne].
  - inversion H; subst b. exists this. split; [constructor|exact Heq].
  - destruct (isRoot (deref w this)) eqn:Hroot.
    + inversion H; subst b. intros n Hn. apply isRoot_true in Hroot.
      inversion Hn as [|? d ? Hd _]; subst; [exact Hne|].
      rewrite Hroot in Hd. apply elem_of_nil in Hd. contradiction.
    + destruct b.
      * apply some_of_true in H as (d & Hd & Hrec).
        destruct (IH _ _ _ Hrec) as (n & Hn & Hname).
        exists n. split; [|exact Hname]. econstructor; eassumption.
      * intros n Hn. inversion Hn as [|? d ? Hd Hrest]; subst; [exact Hne|].
        apply (IH d pkg false); [|exact Hrest].
        eapply some_of_false in H; eassumption.
Qed.

Lemma isAncestorEqual_decides_ancestors_witness :
  exists n, ancestor chain_world 1 n
            /\ fullName (deref chain_world n) = fullName (deref chain_world 0).
Proof.
  exact (isAncestorEqual_decides_ancestors chain_world 2 1 0 true eq_refl).
Defined.

(** With a measure that decreases along the dependents, a recursion depth
    above the measure of the start node is enough. *)
Lemma isAncestorEqual_ranked (w : World) (rank : loc -> nat) :
  (forall n d, d ∈ dependents (deref w n) -> rank d < rank n) ->
  forall fuel this pkg, rank this < fuel ->
  exists b, isAncestorEqual fuel w this pkg = Some b.
Proof.
  intros Hrank. induction fuel as [|fuel IH]; intros this pkg Hlt; [lia|].
  rewrite isAncestorEqual_unfold.
  destruct (isEqual (deref w pkg) (deref w this)); [eauto|].
  destruct (isRoot (deref w this)); [eauto|].
  apply some_of_total. intros d Hd. apply IH.
  specialize (Hrank _ _ Hd). lia.
Qed.

(** X3. [isAncestorEqual] returns whenever the dependents form no cycle:
    if some measure of the nodes decreases along every dependent edge, a
    recursion depth of one more than the measure of the start node is
    enough. *)
Theorem isAncestorEqual_returns_when_acyclic (w : World) (rank : loc -> nat) :
  (forall n d, d ∈ dependents (deref w n) -> rank d < rank n) ->
  forall this pkg, exists b, isAncestorEqual (S (rank this)) w this pkg = Some b.
Proof.
  intros Hrank this pkg.
  destruct (isAncestorEqual_ranked w rank Hrank (S (rank this)) this pkg)
    as [b Hb]; [lia|].
  exists b. exact Hb.
Qed.

Lemma isAncestorEqual_returns_when_acyclic_witness :
  exists b, isAncestorEqual 2 chain_world 1 0 = Some b.
Proof.
  apply (isAncestorEqual_returns_when_acyclic chain_world (fun n => n)).
  intros n d Hd. destruct n as [|[|n]].
  - vm_compute in Hd. apply elem_of_nil in Hd. contradiction.
  - change (dependents (deref chain_world 1)) with [0] in Hd.
    apply list_elem_of_singleton in Hd. subst d. lia.
  - assert (Hnil : dependents (deref chain_world (S (S n))) = [])
      by (unfold deref; simpl; destruct n; reflexivity).
    rewrite Hnil in Hd. apply elem_of_nil in Hd. contradiction.
Defined.

(** ** Further properties: the registry client *)

(** Whatever the loop of [apiRequest] ends with, it has only logged
    requests for its URL, at most as many as it had passes left. *)
Lemma apiRequest_loop_frame E url : forall remaining w,
  exists k,
    k <= remaining
    /\ (apiRequest_loop E remaining url w).2
       = with_requests (replicate k url ++ requests w) w
    /\ (apiRequest_loop E remaining url w).1 <> OutOfFuel.
Proof.
  induction remaining as [|n IH]; intros w.
  - exists 0. simpl. rewrite with_requests_id. repeat split; [lia|discriminate].
  - assert (Hrec : exists k, k <= S n
             /\ (apiRequest_loop E n url (with_requests (url :: requests w) w)).2
                = with_requests (replicate k url ++ requests w) w
             /\ (apiRequest_loop E n url (with_requests (url :: requests w) w)).1
                <> OutOfFuel).
    { destruct (IH (with_requests (url :: requests w) w)) as (k & Hk & Hw & Ho).
      exists (S k). split; [lia|]. split; [|exact Ho].
      rewrite Hw. simpl. rewrite replicate_shift. reflexivity. }
    assert (Hone : forall o : outcome APIResponse, o <> OutOfFuel ->
              exists k, k <= S n
                /\ (o, with_requests (url :: requests w) w).2
                   = with_requests (replicate k url ++ requests w) w
                /\ (o, with_requests (url :: requests w) w).1 <> OutOfFuel).
    { intros o Ho. exists 1. split; [lia|]. split; [reflexivity|exact Ho]. }
    simpl. destruct (fetch E (length (requests w)) url) as [r|]; [|exact Hrec].
    destruct (negb (ok r)).
    + destruct (Nat.eqb (status r) ClientErrorNotFound);
        apply Hone; discriminate.
    + destruct (json r); [exact Hrec|exact Hrec|apply Hone; discriminate].
Qed.

(** [apiRequest] leaves the objects, the node cache and the files alone. *)
Lemma apiRequest_effects (E : Env) (n : string) (v : option string) (w : World) :
  heap (apiRequest E n v w).2 = heap w
  /\ cache (apiRequest E n v w).2 = cache w
  /\ files (apiRequest E n v w).2 = files w.
Proof.
  destruct (apiCache w !! n) as [cached|] eqn:Hc.
  - unfold apiRequest. rewrite Hc. destruct (truthy_opt v).
    + destruct (api_versions cached); repeat split.
    + repeat split.
  - rewrite apiRequest_uncached by exact Hc.
    destruct (apiRequest_loop_frame E (registry_url n (default "" v)) MAX_TRIES w)
      as (k & _ & Hw & _).
    destruct (apiRequest_loop E MAX_TRIES (registry_url n (default "" v)) w)
      as [[body| |] w1]; cbn [snd] in Hw; subst w1.
    + destruct (String.eqb (default "" v) ""); repeat split.
    + repeat split.
    + repeat split.
Qed.

(** X4. [apiRequest] touches neither the objects nor the node cache nor the
    files; it logs at most [MAX_TRIES] requests, all for the one URL of the
    call; and the only change it can make to [apiCache] is to store, under
    the name, the response it returns for a request without a version. *)
Theorem apiRequest_frame (E : Env) (name : string) (version : option string)
    (w : World) :
  let out := (apiRequest E name version w).1 in
  let w' := (apiRequest E name version w).2 in
  heap w' = heap w /\ cache w' = cache w /\ files w' = files w
  /\ out <> OutOfFuel
  /\ (exists k, k <= MAX_TRIES
        /\ requests w'
           = replicate k (registry_url name (default "" version)) ++ requests w)
  /\ (apiCache w' = apiCache w
      \/ exists body,
           default "" version = "" /\ out = Ok (Some body)
           /\ apiCache w' = <[name := body]> (apiCache w)).
Proof.
  intros out w'. subst out w'.
  destruct (apiCache w !! name) as [cached|] eqn:Hc.
  - assert (Hsame : (apiRequest E name version w).2 = w
                    /\ (apiRequest E name version w).1 <> OutOfFuel).
    { unfold apiRequest. rewrite Hc. destruct (truthy_opt version).
      - destruct (api_versions cached); split; (reflexivity || discriminate).
      - split; (reflexivity || discriminate). }
    destruct Hsame as [-> Hout]. repeat split; auto.
    exists 0. split; [lia|reflexivity].
  - rewrite apiRequest_uncached by exact Hc.
    destruct (apiRequest_loop_frame E (registry_url name (default "" version))
                MAX_TRIES w) as (k & Hk & Hw & Ho).
    destruct (apiRequest_loop E MAX_TRIES
                (registry_url name (default "" version)) w) as [[body| |] w1];
      simpl in Hw, Ho; subst w1.
    + destruct (String.eqb_spec (default "" version) "") as [Hv|Hv]; simpl.
      * repeat split; try discriminate; eauto.
      * repeat split; try discriminate; eauto.
    + simpl. repeat split; try discriminate; eauto.
    + contradiction.
Qed.

(** X5. A successful request without a version is remembered: the response
    is stored in [apiCache] under the name, and the same request made again
    returns the same response from any network, without a request and
    without changing anything. *)
Theorem apiRequest_unscoped_memoised (E E' : Env) (name : string) (w : World)
    (k : nat) (r : Response) (body : APIResponse) :
  let url := registry_url name "" in
  apiCache w !! name = None ->
  k < MAX_TRIES ->
  (forall i, i < k ->
     attempt_retried (fetch E (length (requests w) + i) url) = true) ->
  fetch E (length (requests w) + k) url = Some r ->
  ok r = true ->
  json r = JsonValue body ->
  exists w1,
    apiRequest E name None w = (Ok (Some body), w1)
    /\ apiCache w1 !! name = Some body
    /\ requests w1 = replicate (S k) url ++ requests w
    /\ apiRequest E' name None w1 = (Ok (Some body), w1).
Proof.
  intros url Hc Hlt Hk Hf Hok Hj.
  eexists. split.
  - rewrite apiRequest_uncached by exact Hc. change (default "" None) with "".
    fold url. replace MAX_TRIES with (k + S (MAX_TRIES - S k)) by lia.
    rewrite apiRequest_loop_retried by exact Hk.
    rewrite (apiRequest_loop_value _ _ _ _ r body); [reflexivity| |exact Hok|exact Hj].
    simpl. rewrite length_app, length_replicate, Nat.add_comm. exact Hf.
  - split; [apply lookup_insert_eq|]. split; [reflexivity|].
    unfold apiRequest. cbn [apiCache with_apiCache].
    rewrite lookup_insert_eq. reflexivity.
Qed.

Lemma apiRequest_unscoped_memoised_witness :
  exists w1,
    apiRequest (Lib.env Fixture.net_dep) "dep" None emptyWorld
    = (Ok (Some Fixture.dep_packument), w1)
    /\ apiRequest (Lib.env Fixture.net_down) "dep" None w1
       = (Ok (Some Fixture.dep_packument), w1).
Proof.
  destruct (apiRequest_unscoped_memoised (Lib.env Fixture.net_dep)
              (Lib.env Fixture.net_down) "dep" emptyWorld 0
              (Fixture.respond Fixture.dep_packument) Fixture.dep_packument)
    as (w1 & H1 & _ & _ & H2).
  - apply lookup_empty.
  - unfold MAX_TRIES. lia.
  - intros i Hi. lia.
  - reflexivity.
  - reflexivity.
  - reflexivity.
  - exists w1. split; assumption.
Defined.

(** X6. A 404 is final for [apiRequest]: on the attempt that receives it
    the call throws [Errors.REGISTRY_ERROR] (not [Errors.NOT_FOUND]),
    without a further request and without storing anything. *)
Theorem apiRequest_not_found (E : Env) (name : string) (version : option string)
    (w : World) (k : nat) (r : Response) :
  let url := registry_url name (default "" version) in
  apiCache w !! name = None ->
  k < MAX_TRIES ->
  (forall i, i < k ->
     attempt_retried (fetch E (length (requests w) + i) url) = true) ->
  fetch E (length (requests w) + k) url = Some r ->
  status r = ClientErrorNotFound ->
  apiRequest E name version w
  = (Throw (ThrowStr Errors.REGISTRY_ERROR),
     with_requests (replicate (S k) url ++ requests w) w)
  /\ Errors.REGISTRY_ERROR <> Errors.NOT_FOUND.
Proof.
  intros url Hc Hlt Hk Hf Hst. split; [|discriminate].
  rewrite apiRequest_uncached by exact Hc. fold url.
  replace MAX_TRIES with (k + S (MAX_TRIES - S k)) by lia.
  rewrite apiRequest_loop_retried by exact Hk.
  rewrite (apiRequest_loop_not_ok _ _ _ _ r).
  - rewrite Hst. reflexivity.
  - simpl. rewrite length_app, length_replicate, Nat.add_comm. exact Hf.
  - unfold ok. rewrite Hst. reflexivity.
Qed.

Lemma apiRequest_not_found_witness :
  apiRequest (Lib.env Fixture.net_404) "dep" None emptyWorld
  = (Throw (ThrowStr Errors.REGISTRY_ERROR),
     with_requests [registry_url "dep" ""] emptyWorld).
Proof.
  refine (proj1 (apiRequest_not_found (Lib.env Fixture.net_404) "dep" None
                   emptyWorld 0 Fixture.not_found _ _ _ _ _)).
  - apply lookup_empty.
  - unfold MAX_TRIES. lia.
  - intros i Hi. lia.
  - reflexivity.
  - reflexivity.
Defined.

(** X7. A specifier with [<] or [-] is resolved from [apiCache] when the
    name is there: the greatest satisfying key of the cached versions
    object, or [latest], with no request and no change of state. *)
Theorem resolveVersion_from_apiCache (E : Env) (name semanticVersion : string)
    (w : World) (cached : APIResponse) (versions : list (string * APIResponse)) :
  semanticVersion <> "*" ->
  includes semanticVersion "<" || includes semanticVersion "-" = true ->
  apiCache w !! name = Some cached ->
  api_versions cached = Some versions ->
  resolveVersion E name semanticVersion w
  = (Ok (default "latest"
           (semver_maxSatisfying E (keys versions) semanticVersion)), w).
Proof.
  intros Hne Hinc Hc Hv. rewrite resolveVersion_range by assumption.
  unfold apiRequest. rewrite Hc. cbn [truthy_opt]. rewrite Hv. reflexivity.
Qed.

Lemma resolveVersion_from_apiCache_witness :
  resolveVersion (Lib.env Fixture.net_down) "dep" "<4.0.0"
    (with_apiCache {["dep" := Fixture.dep_packument]} emptyWorld)
  = (Ok "3.9.3", with_apiCache {["dep" := Fixture.dep_packument]} emptyWorld).
Proof.
  refine (resolveVersion_from_apiCache (Lib.env Fixture.net_down) "dep" "<4.0.0"
            (with_apiCache {["dep" := Fixture.dep_packument]} emptyWorld)
            Fixture.dep_packument
            [("3.0.0", Fixture.manifest []); ("3.9.3", Fixture.manifest []);
             ("4.0.0", Fixture.manifest [])] _ _ _ _).
  - discriminate.
  - reflexivity.
  - apply lookup_singleton_eq.
  - reflexivity.
Defined.

(** ** Further properties: what the expansion keeps *)

Lemma preserved_refl w : preserved w w.
Proof. repeat split; auto. Qed.

Lemma preserved_trans w1 w2 w3 :
  preserved w1 w2 -> preserved w2 w3 -> preserved w1 w3.
Proof.
  intros (Hl1 & Hn1 & Hc1) (Hl2 & Hn2 & Hc2). split; [lia|]. split.
  - intros l Hl. destruct (Hn1 l Hl) as (Ha & Hb & Hd).
    destruct (Hn2 l ltac:(lia)) as (Ha' & Hb' & Hd').
    repeat split; [congruence|congruence|]. etrans; eassumption.
  - intros key l H. apply Hc2, Hc1, H.
Qed.

Lemma evolves_refl w : evolves w w.
Proof. split; [apply preserved_refl|auto]. Qed.

Lemma evolves_trans w1 w2 w3 : evolves w1 w2 -> evolves w2 w3 -> evolves w1 w3.
Proof.
  intros [Hp1 Hv1] [Hp2 Hv2]. split; [eapply preserved_trans; eassumption|auto].
Qed.

(** A state with the same objects and the same node cache. *)
Lemma evolves_same w w' : heap w' = heap w -> cache w' = cache w -> evolves w w'.
Proof.
  intros Hh Hc. split.
  - unfold preserved, deref. rewrite Hh, Hc. repeat split; auto.
  - unfold cache_valid. rewrite Hh, Hc. auto.
Qed.

Lemma deref_update_cases w l l' f :
  deref (update l f w) l' = f (deref w l') \/ deref (update l f w) l' = deref w l'.
Proof.
  destruct (decide (l = l')) as [<-|Hne].
  - destruct (decide (l < length (heap w))) as [Hl|Hl].
    + left. apply deref_update_same, Hl.
    + right. unfold deref, update; simpl. rewrite !list_lookup_total_alt.
      rewrite list_lookup_alter_eq.
      rewrite (lookup_ge_None_2 (heap w) l) by lia. reflexivity.
  - right. apply deref_update_other, Hne.
Qed.

(** An assignment that keeps the name and the version and loses no
    dependent. *)
Lemma update_evolves l f w :
  (forall p, name (f p) = name p) ->
  (forall p, version (f p) = version p) ->
  (forall p, dependents p ⊆ dependents (f p)) ->
  evolves w (update l f w).
Proof.
  intros Hn Hv Hd. split.
  - split; [simpl; rewrite length_alter; lia|]. split; [|auto].
    intros l' _. rewrite (deref_update_field name), (deref_update_field version)
      by assumption.
    repeat split.
    destruct (deref_update_cases w l l' f) as [-> | ->]; [apply Hd|reflexivity].
  - unfold cache_valid. simpl. rewrite length_alter. auto.
Qed.

Lemma deref_app_l w p l :
  l < length (heap w) -> deref (with_heap (heap w ++ [p]) w) l = deref w l.
Proof. intros Hl. unfold deref; simpl. apply lookup_total_app_l, Hl. Qed.

Lemma fromNameAndVersion_evolves n v w :
  evolves w (fromNameAndVersion n v w).2.
Proof.
  unfold fromNameAndVersion.
  destruct (cache w !! fullNameByNameAndVersion n v) as [c|] eqn:Hc;
    [apply evolves_refl|].
  split.
  - split; [simpl; rewrite length_app; lia|]. split.
    + intros l Hl. cbn [snd].
      change (deref (with_cache _ ?x) l) with (deref x l).
      rewrite deref_app_l by exact Hl. repeat split; reflexivity.
    + intros key l Hk. cbn [snd cache with_cache with_heap].
      rewrite lookup_insert_ne; [exact Hk|].
      unfold fullName; cbn [name version new_Package]. simpl default.
      intros Heq. rewrite Heq in Hc. congruence.
  - intros Hvalid.
    destruct (fromNameAndVersion_spec n v w (length (heap w))
                (fromNameAndVersion n v w).2) as (_ & _ & _ & _ & H).
    + unfold fromNameAndVersion. rewrite Hc. reflexivity.
    + unfold fromNameAndVersion in H. rewrite Hc in H. apply H, Hvalid.
Qed.

(** A node returned by [fromNameAndVersion] is an object of the heap. *)
Lemma fromNameAndVersion_valid name version w node w' :
  cache_valid w ->
  fromNameAndVersion name version w = (Ok node, w') ->
  node < length (heap w').
Proof.
  intros Hvalid H.
  destruct (fromNameAndVersion_spec _ _ _ _ _ H) as (_ & _ & _ & _ & Hv).
  apply Hv, Hvalid.
Qed.

Lemma apiRequest_evolves E name version w :
  evolves w (apiRequest E name version w).2.
Proof.
  destruct (apiRequest_effects E name version w) as (Hh & Hc & _).
  apply evolves_same; assumption.
Qed.

Lemma resolveVersion_evolves E name semanticVersion w :
  evolves w (resolveVersion E name semanticVersion w).2.
Proof.
  unfold resolveVersion.
  destruct (String.eqb semanticVersion "*"); [apply evolves_refl|].
  destruct (includes semanticVersion "<" || includes semanticVersion "-");
    [|apply evolves_refl].
  unfold bind. pose proof (apiRequest_evolves E name None w) as H.
  destruct (apiRequest E name None w) as [[[r|]| |] w1]; try exact H.
  destruct (api_versions r); exact H.
Qed.

Lemma fromSemanticVersion_evolves E name semanticVersion w :
  evolves w (fromSemanticVersion E name semanticVersion w).2.
Proof.
  unfold fromSemanticVersion, bind.
  pose proof (resolveVersion_evolves E name semanticVersion w) as H.
  destruct (resolveVersion E name semanticVersion w) as [[v| |] w1]; try exact H.
  eapply evolves_trans; [exact H|apply fromNameAndVersion_evolves].
Qed.

Lemma fromSemanticVersion_valid E name semanticVersion w node w' :
  cache_valid w ->
  fromSemanticVersion E name semanticVersion w = (Ok node, w') ->
  node < length (heap w').
Proof.
  intros Hvalid. unfold fromSemanticVersion, bind.
  pose proof (resolveVersion_evolves E name semanticVersion w) as [_ Hv].
  destruct (resolveVersion E name semanticVersion w) as [[v| |] w1];
    try discriminate.
  apply fromNameAndVersion_valid, Hv, Hvalid.
Qed.

Lemma addDependent_evolves this pkg w : evolves w (addDependent this pkg w).2.
Proof.
  unfold addDependent.
  destruct (includes_loc (dependents (deref w this)) pkg); [apply evolves_refl|].
  apply update_evolves; try reflexivity.
  intros p x Hx. cbn [dependents set_dependents]. apply elem_of_app. left. exact Hx.
Qed.

Lemma isAncestorEqualM_state fuel this pkg w :
  (isAncestorEqualM fuel this pkg w).2 = w.
Proof. unfold isAncestorEqualM. destruct (isAncestorEqual fuel w this pkg); reflexivity. Qed.

Lemma getDependencies_loop_evolves E fuel this : forall entries result w,
  evolves w (getDependencies_loop E fuel this entries result w).2.
Proof.
  induction entries as [|[n sv] rest IH]; intros result w; [apply evolves_refl|].
  cbn [getDependencies_loop]. unfold bind at 1.
  pose proof (fromSemanticVersion_evolves E n sv w) as H1.
  destruct (fromSemanticVersion E n sv w) as [[dep| |] w1]; try exact H1.
  unfold bind at 1. pose proof (isAncestorEqualM_state fuel this dep w1) as H2.
  destruct (isAncestorEqualM fuel this dep w1) as [[[|]| |] w2];
    cbn [snd] in H2; subst w2; try exact H1.
  - eapply evolves_trans; [exact H1|apply IH].
  - unfold bind. pose proof (addDependent_evolves dep this w1) as H3.
    destruct (addDependent dep this w1) as [[[]| |] w3]; cbn [snd] in H3.
    + eapply evolves_trans; [exact H1|].
      eapply evolves_trans; [exact H3|apply IH].
    + eapply evolves_trans; eassumption.
    + eapply evolves_trans; eassumption.
Qed.

(** [getDependencies] only moves to a state that keeps the earlier one. *)
Lemma getDependencies_keeps (E : Env) (fuel : nat) (this : loc) (w : World) :
  evolves w (getDependencies E fuel this w).2.
Proof.
  unfold getDependencies.
  assert (H0 : evolves w (update this (set_loading true) w))
    by (apply update_evolves; reflexivity).
  set (w0 := update this (set_loading true) w) in *.
  pose proof (apiRequest_evolves E (name (deref w0 this))
                (Some (version (deref w0 this))) w0) as H1.
  destruct (apiRequest E (name (deref w0 this)) (Some (version (deref w0 this))) w0)
    as [[[body|]|e|] w1]; cbn [snd] in H1.
  - assert (H2 : evolves w1 (update this
                   (set_tarballURL (tarball <$> api_dist body)) w1))
      by (apply update_evolves; reflexivity).
    destruct (api_dependencies body) as [deps|].
    + pose proof (getDependencies_loop_evolves E fuel this deps []
                    (update this (set_tarballURL (tarball <$> api_dist body)) w1))
        as H3.
      destruct (getDependencies_loop E fuel this deps []
                  (update this (set_tarballURL (tarball <$> api_dist body)) w1))
        as [[result| |] w3]; cbn [snd] in H3 |- *.
      * eapply evolves_trans; [exact H0|]. eapply evolves_trans; [exact H1|].
        eapply evolves_trans; [exact H2|]. eapply evolves_trans; [exact H3|].
        apply update_evolves; reflexivity.
      * eapply evolves_trans; [exact H0|]. eapply evolves_trans; [exact H1|].
        eapply evolves_trans; [exact H2|exact H3].
      * eapply evolves_trans; [exact H0|]. eapply evolves_trans; [exact H1|].
        eapply evolves_trans; [exact H2|exact H3].
    + eapply evolves_trans; [exact H0|]. eapply evolves_trans; eassumption.
  - eapply evolves_trans; eassumption.
  - destruct (decide (e = ThrowStr Errors.REGISTRY_ERROR)); cbn [snd].
    + eapply evolves_trans; eassumption.
    + eapply evolves_trans; [exact H0|]. eapply evolves_trans; [exact H1|].
      eapply evolves_trans; apply update_evolves; reflexivity.
  - eapply evolves_trans; eassumption.
Qed.

Lemma preserved_dependent w w' this d :
  preserved w w' ->
  d < length (heap w) /\ this ∈ dependents (deref w d) ->
  d < length (heap w') /\ this ∈ dependents (deref w' d).
Proof.
  intros (Hlen & Hkeep & _) [Hd Hin]. split; [lia|].
  destruct (Hkeep d Hd) as (_ & _ & Hsub). apply Hsub, Hin.
Qed.

(** The loop of [getDependencies] returns the array it was given, extended;
    every node it appended is an object that has [this] among its
    dependents. *)
Lemma getDependencies_loop_result E fuel this : forall entries acc w result w',
  cache_valid w ->
  (forall d, d ∈ acc -> d < length (heap w) /\ this ∈ dependents (deref w d)) ->
  getDependencies_loop E fuel this entries acc w = (Ok result, w') ->
  (forall d, d ∈ result -> d < length (heap w') /\ this ∈ dependents (deref w' d))
  /\ exists more, result = acc ++ more /\ length more <= length entries.
Proof.
  induction entries as [|[n sv] rest IH]; intros acc w result w' Hvalid Hacc Hrun.
  - inversion Hrun; subst. split; [exact Hacc|].
    exists []. rewrite app_nil_r. split; [reflexivity|simpl; lia].
  - cbn [getDependencies_loop] in Hrun. unfold bind at 1 in Hrun.
    pose proof (fromSemanticVersion_evolves E n sv w) as [Hp1 Hv1].
    destruct (fromSemanticVersion E n sv w) as [[dep| |] w1] eqn:Hdep;
      try discriminate Hrun.
    cbn [snd] in Hp1, Hv1.
    pose proof (fromSemanticVersion_valid _ _ _ _ _ _ Hvalid Hdep) as Hdepv.
    unfold bind at 1 in Hrun. unfold isAncestorEqualM in Hrun.
    destruct (isAncestorEqual fuel w1 this dep) as [[|]|]; try discriminate Hrun.
    + destruct (IH acc w1 result w' (Hv1 Hvalid)) as (Hres & more & Hmore & Hlen).
      * intros d Hd. eapply preserved_dependent; [exact Hp1|apply Hacc, Hd].
      * exact Hrun.
      * split; [exact Hres|]. exists more. split; [exact Hmore|simpl; lia].
    + unfold bind at 1 in Hrun.
      destruct (addDependent_member dep this w1 Hdepv) as (w2 & Hadd & Hin).
      pose proof (addDependent_evolves dep this w1) as [Hp2 Hv2].
      rewrite Hadd in Hrun, Hp2, Hv2. cbn [snd] in Hp2, Hv2.
      destruct (IH (acc ++ [dep]) w2 result w' (Hv2 (Hv1 Hvalid)))
        as (Hres & more & Hmore & Hlen).
      * intros d Hd. apply elem_of_app in Hd as [Hd|Hd].
        -- eapply preserved_dependent; [exact Hp2|].
           eapply preserved_dependent; [exact Hp1|apply Hacc, Hd].
        -- apply list_elem_of_singleton in Hd. subst d.
           split; [|exact Hin]. destruct Hp2 as (Hl & _). lia.
      * exact Hrun.
      * split; [exact Hres|]. exists (dep :: more).
        split; [rewrite Hmore, <- app_assoc; reflexivity|simpl; lia].
Qed.

(** [getDependencies] after a request that threw. *)
Lemma getDependencies_on_throw E fuel this w e w1 :
  apiRequest E (name (deref w this)) (Some (version (deref w this)))
    (update this (set_loading true) w) = (Throw e, w1) ->
  getDependencies E fuel this w
  = if decide (e = ThrowStr Errors.REGISTRY_ERROR) then (Ok [], w1)
    else (Throw e, update this (set_loading false) (update this (set_error true) w1)).
Proof.
  intros H. unfold getDependencies.
  rewrite !(deref_update_field name), !(deref_update_field version) by reflexivity.
  rewrite H. reflexivity.
Qed.

(** [getDependencies] after a request that returned a response. *)
Lemma getDependencies_on_response E fuel this w body w1 :
  apiRequest E (name (deref w this)) (Some (version (deref w this)))
    (update this (set_loading true) w) = (Ok (Some body), w1) ->
  getDependencies E fuel this w
  = let w2 := update this (set_tarballURL (tarball <$> api_dist body)) w1 in
    match api_dependencies body with
    | None => (Ok [], w2)
    | Some deps =>
        match getDependencies_loop E fuel this deps [] w2 with
        | (Ok result, w3) => (Ok result, update this (set_dependencies result) w3)
        | other => other
        end
    end.
Proof.
  intros H. unfold getDependencies.
  rewrite !(deref_update_field name), !(deref_update_field version) by reflexivity.
  rewrite H. reflexivity.
Qed.

(** X9. When [getDependencies] returns, from a state with valid cached
    references, every node of the returned array is an object that has
    [this] recorded among its dependents, and a non-empty array is also
    what [this.dependencies] now holds. *)
Theorem getDependencies_result_recorded (E : Env) (fuel : nat) (this : loc)
    (w w' : World) (result : list loc) :
  cache_valid w ->
  this < length (heap w) ->
  getDependencies E fuel this w = (Ok result, w') ->
  (forall d, d ∈ result ->
     d < length (heap w') /\ this ∈ dependents (deref w' d))
  /\ (result <> [] -> dependencies (deref w' this) = result).
Proof.
  intros Hvalid Hthis Hrun.
  set (w0 := update this (set_loading true) w).
  assert (H0 : evolves w w0) by (apply update_evolves; reflexivity).
  pose proof (apiRequest_evolves E (name (deref w this))
                (Some (version (deref w this))) w0) as H1.
  destruct (apiRequest E (name (deref w this)) (Some (version (deref w this))) w0)
    as [[[body|]|e|] w1] eqn:Hreq; cbn [snd] in H1.
  - rewrite (getDependencies_on_response _ _ _ _ _ _ Hreq) in Hrun.
    cbn zeta in Hrun.
    set (w2 := update this (set_tarballURL (tarball <$> api_dist body)) w1) in *.
    assert (H2 : evolves w1 w2) by (apply update_evolves; reflexivity).
    assert (H02 : evolves w w2)
      by (eapply evolves_trans; [exact H0|eapply evolves_trans; eassumption]).
    destruct (api_dependencies body) as [deps|].
    + pose proof (getDependencies_loop_evolves E fuel this deps [] w2) as H3.
      destruct (getDependencies_loop E fuel this deps [] w2)
        as [[res| |] w3] eqn:Hloop; try discriminate Hrun.
      inversion Hrun; subst; clear Hrun. cbn [snd] in H3.
      destruct (getDependencies_loop_result _ _ _ _ _ _ _ _
                  (proj2 H02 Hvalid) ltac:(intros d Hd;
                    apply elem_of_nil in Hd; contradiction) Hloop)
        as (Hres & _).
      split.
      * intros d Hd. destruct (Hres d Hd) as [Hdv Hin]. split.
        -- simpl. rewrite length_alter. exact Hdv.
        -- rewrite (deref_update_field dependents) by reflexivity. exact Hin.
      * intros _. rewrite deref_update_same; [reflexivity|].
        destruct H02 as [(Hl2 & _) _]. destruct H3 as [(Hl3 & _) _]. lia.
    + inversion Hrun; subst. split; [|congruence].
      intros d Hd. apply elem_of_nil in Hd. contradiction.
  - unfold getDependencies in Hrun.
    rewrite !(deref_update_field name), !(deref_update_field version) in Hrun
      by reflexivity.
    fold w0 in Hrun. rewrite Hreq in Hrun. discriminate Hrun.
  - rewrite (getDependencies_on_throw _ _ _ _ _ _ Hreq) in Hrun.
    destruct (decide (e = ThrowStr Errors.REGISTRY_ERROR)); [|discriminate Hrun].
    inversion Hrun; subst. split; [|congruence].
    intros d Hd. apply elem_of_nil in Hd. contradiction.
  - unfold getDependencies in Hrun.
    rewrite !(deref_update_field name), !(deref_update_field version) in Hrun
      by reflexivity.
    fold w0 in Hrun. rewrite Hreq in Hrun. discriminate Hrun.
Qed.

Lemma getDependencies_result_recorded_witness :
  0 ∈ dependents
        (deref (getDependencies (Lib.env Fixture.net_cycle) 2 0
                  (fromNameAndVersion "a" "1.0.0" emptyWorld).2).2 1).
Proof.
  refine (proj2 (proj1 (getDependencies_result_recorded
                   (Lib.env Fixture.net_cycle) 2 0
                   (fromNameAndVersion "a" "1.0.0" emptyWorld).2
                   (getDependencies (Lib.env Fixture.net_cycle) 2 0
                      (fromNameAndVersion "a" "1.0.0" emptyWorld).2).2
                   [1] _ _ _) 1 _)).
  - apply (proj2 (fromNameAndVersion_evolves "a" "1.0.0" emptyWorld)).
    intros key l H. simpl in H. rewrite lookup_empty in H. discriminate H.
  - vm_compute. lia.
  - apply injective_projections; [vm_compute; reflexivity|reflexivity].
  - apply list_elem_of_singleton. reflexivity.
Defined.

(** ** Further properties: failures of the expansion *)

Lemma apiRequest_heap E n v w : heap (apiRequest E n v w).2 = heap w.
Proof. destruct (apiRequest_effects E n v w) as (H & _). exact H. Qed.

(** The flags of [this] after the [catch] branch that rethrows. *)
Lemma catch_flags this w1 :
  this < length (heap w1) ->
  let w' := update this (set_loading false) (update this (set_error true) w1) in
  error (deref w' this) = true
  /\ loading (deref w' this) = false
  /\ dependencies (deref w' this) = dependencies (deref w1 this).
Proof.
  intros Hthis w'. subst w'.
  assert (Hlen : this < length (heap (update this (set_error true) w1)))
    by (simpl; rewrite length_alter; exact Hthis).
  rewrite !deref_update_same by assumption. repeat split.
Qed.

(** X10. When all [MAX_TRIES] attempts of the metadata request are retried
    ones, [getDependencies] throws [TOO_MANY_FAILURES] after ten requests,
    and it leaves the node flagged: [error] is set, [loading] is cleared,
    [dependencies] is untouched. *)
Theorem getDependencies_too_many_failures (E : Env) (fuel : nat) (this : loc)
    (w : World) :
  let url := registry_url (name (deref w this)) (version (deref w this)) in
  this < length (heap w) ->
  apiCache w !! name (deref w this) = None ->
  (forall i, i < MAX_TRIES ->
     attempt_retried (fetch E (length (requests w) + i) url) = true) ->
  exists w',
    getDependencies E fuel this w
    = (Throw (ThrowStr Errors.TOO_MANY_FAILURES), w')
    /\ requests w' = replicate MAX_TRIES url ++ requests w
    /\ error (deref w' this) = true
    /\ loading (deref w' this) = false
    /\ dependencies (deref w' this) = dependencies (deref w this).
Proof.
  intros url Hthis Hc Hk.
  assert (Hreq : apiRequest E (name (deref w this)) (Some (version (deref w this)))
                   (update this (set_loading true) w)
                 = (Throw (ThrowStr Errors.TOO_MANY_FAILURES),
                    with_requests (replicate MAX_TRIES url ++ requests w)
                      (update this (set_loading true) w))).
  { rewrite apiRequest_uncached by exact Hc.
    change (default "" (Some (version (deref w this))))
      with (version (deref w this)). fold url.
    replace MAX_TRIES with (MAX_TRIES + 0) at 1 by lia.
    rewrite apiRequest_loop_retried by exact Hk. reflexivity. }
  rewrite (getDependencies_on_throw _ _ _ _ _ _ Hreq).
  destruct (decide (ThrowStr Errors.TOO_MANY_FAILURES
                    = ThrowStr Errors.REGISTRY_ERROR)) as [Heq|_];
    [discriminate Heq|].
  eexists. split; [reflexivity|]. split; [reflexivity|].
  set (w1 := with_requests _ _).
  assert (Hlen : this < length (heap w1))
    by (subst w1; simpl; rewrite length_alter; exact Hthis).
  destruct (catch_flags this w1 Hlen) as (He & Hl & Hd).
  split; [exact He|]. split; [exact Hl|]. rewrite Hd.
  apply (deref_update_field dependencies (with_requests _ w)). reflexivity.
Qed.

Lemma getDependencies_too_many_failures_witness :
  exists w',
    getDependencies (Lib.env Fixture.net_down) 0 0
      (with_heap [new_Package "dep" (Some "1.0.0")] emptyWorld)
    = (Throw (ThrowStr Errors.TOO_MANY_FAILURES), w')
    /\ error (deref w' 0) = true.
Proof.
  destruct (getDependencies_too_many_failures (Lib.env Fixture.net_down) 0 0
              (with_heap [new_Package "dep" (Some "1.0.0")] emptyWorld))
    as (w' & Hrun & _ & Herr & _).
  - simpl. lia.
  - apply lookup_empty.
  - intros i Hi. reflexivity.
  - exists w'. split; assumption.
Defined.

(** X11. A response with a non-success status other than 404 ends the
    expansion by its status text: [getDependencies] rethrows the text and
    flags the node in error, unless the text is the string
    [REGISTRY_ERROR], which the [catch] takes for the 404 signal: then the
    expansion returns the empty array and the flag is not set. *)
Theorem getDependencies_http_error (E : Env) (fuel : nat) (this : loc)
    (w : World) (k : nat) (r : Response) :
  let url := registry_url (name (deref w this)) (version (deref w this)) in
  this < length (heap w) ->
  apiCache w !! name (deref w this) = None ->
  k < MAX_TRIES ->
  (forall i, i < k ->
     attempt_retried (fetch E (length (requests w) + i) url) = true) ->
  fetch E (length (requests w) + k) url = Some r ->
  ok r = false ->
  status r <> ClientErrorNotFound ->
  exists w',
    getDependencies E fuel this w
    = (if decide (statusText r = Errors.REGISTRY_ERROR) then Ok []
       else Throw (ThrowStr (statusText r)), w')
    /\ error (deref w' this)
       = (if decide (statusText r = Errors.REGISTRY_ERROR)
          then error (deref w this) else true).
Proof.
  intros url Hthis Hc Hlt Hk Hf Hok Hst.
  assert (Hreq : apiRequest E (name (deref w this)) (Some (version (deref w this)))
                   (update this (set_loading true) w)
                 = (Throw (ThrowStr (statusText r)),
                    with_requests (replicate (S k) url ++ requests w)
                      (update this (set_loading true) w))).
  { rewrite apiRequest_uncached by exact Hc.
    change (default "" (Some (version (deref w this))))
      with (version (deref w this)). fold url.
    replace MAX_TRIES with (k + S (MAX_TRIES - S k)) by lia.
    rewrite apiRequest_loop_retried by exact Hk.
    rewrite (apiRequest_loop_not_ok _ _ _ _ r).
    - apply Nat.eqb_neq in Hst. rewrite Hst. reflexivity.
    - simpl. rewrite length_app, length_replicate, Nat.add_comm. exact Hf.
    - exact Hok. }
  rewrite (getDependencies_on_throw _ _ _ _ _ _ Hreq).
  set (w1 := with_requests _ _).
  destruct (decide (statusText r = Errors.REGISTRY_ERROR)) as [Heq|Hne].
  - rewrite Heq. destruct (decide (ThrowStr Errors.REGISTRY_ERROR
                                   = ThrowStr Errors.REGISTRY_ERROR)); [|done].
    eexists. split; [reflexivity|].
    apply (deref_update_field error (with_requests _ w)). reflexivity.
  - destruct (decide (ThrowStr (statusText r) = ThrowStr Errors.REGISTRY_ERROR))
      as [Heq|_]; [inversion Heq; contradiction|].
    eexists. split; [reflexivity|].
    assert (Hlen : this < length (heap w1))
      by (subst w1; simpl; rewrite length_alter; exact Hthis).
    apply (catch_flags this w1 Hlen).
Qed.

Lemma getDependencies_http_error_witness :
  exists w',
    getDependencies (Lib.env Fixture.net_500) 0 0
      (with_heap [new_Package "dep" (Some "1.0.0")] emptyWorld)
    = (Throw (ThrowStr "Internal Server Error"), w')
    /\ error (deref w' 0) = true.
Proof.
  exact (getDependencies_http_error (Lib.env Fixture.net_500) 0 0
           (with_heap [new_Package "dep" (Some "1.0.0")] emptyWorld)
           0 Fixture.server_error
           ltac:(simpl; lia) (lookup_empty _) ltac:(unfold MAX_TRIES; lia)
           ltac:(intros i Hi; lia) eq_refl eq_refl
           ltac:(unfold ClientErrorNotFound; simpl; lia)).
Defined.



(** X13. A response without a [dependencies] field ends the expansion with
    the empty array: the tarball URL of the response is recorded on the
    node (and cleared when the response has no [dist]), while
    [dependencies] keeps its earlier value and [loading] stays set. *)
Theorem getDependencies_no_manifest (E : Env) (fuel : nat) (this : loc)
    (w w1 : World) (body : APIResponse) :
  this < length (heap w) ->
  apiRequest E (name (deref w this)) (Some (version (deref w this)))
    (update this (set_loading true) w) = (Ok (Some body), w1) ->
  api_dependencies body = None ->
  exists w',
    getDependencies E fuel this w = (Ok [], w')
    /\ tarballURL (deref w' this) = tarball <$> api_dist body
    /\ dependencies (deref w' this) = dependencies (deref w this)
    /\ loading (deref w' this) = true.
Proof.
  intros Hthis Hreq Hdeps.
  rewrite (getDependencies_on_response _ _ _ _ _ _ Hreq). cbn zeta.
  rewrite Hdeps. eexists. split; [reflexivity|].
  assert (Hheap : heap w1 = heap (update this (set_loading true) w)).
  { pose proof (apiRequest_heap E (name (deref w this))
                  (Some (version (deref w this)))
                  (update this (set_loading true) w)) as H.
    rewrite Hreq in H. exact H. }
  assert (Hlen : this < length (heap w1))
    by (rewrite Hheap; simpl; rewrite length_alter; exact Hthis).
  assert (Hderef : deref w1 this = set_loading true (deref w this)).
  { unfold deref at 1. rewrite Hheap.
    apply (deref_update_same w this (set_loading true) Hthis). }
  rewrite deref_update_same by exact Hlen. rewrite Hderef. repeat split.
Qed.

Lemma getDependencies_no_manifest_witness :
  exists w',
    getDependencies
      (Lib.env (fun _ _ => Some (Fixture.respond Fixture.dep_packument))) 0 0
      (with_heap [new_Package "dep" (Some "1.0.0")] emptyWorld)
    = (Ok [], w')
    /\ tarballURL (deref w' 0) = None
    /\ dependencies (deref w' 0) = []
    /\ loading (deref w' 0) = true.
Proof.
  refine (getDependencies_no_manifest
            (Lib.env (fun _ _ => Some (Fixture.respond Fixture.dep_packument)))
            0 0 (with_heap [new_Package "dep" (Some "1.0.0")] emptyWorld)
            _ Fixture.dep_packument _ _ _).
  - simpl. lia.
  - vm_compute. reflexivity.
  - reflexivity.
Defined.

(** ** Further properties: specifiers and seeding *)

(** X14. [fromString] never throws and never touches the network, the files
    or [apiCache]. A specifier that the parser rejects gives [undefined]
    and changes nothing; a parsed one gives the node cached for its name at
    its fetch specifier, at [latest] when the parser gives none. *)
Theorem fromString_outcome (E : Env) (s : string) (w : World) :
  exists r w',
    fromString E s w = (Ok r, w')
    /\ requests w' = requests w /\ files w' = files w
    /\ apiCache w' = apiCache w
    /\ match npmPackageArg E s with
       | None => r = None /\ w' = w
       | Some p =>
           exists node,
             r = Some node
             /\ cache w' !! fullNameByNameAndVersion (npa_name p)
                              (default "latest" (npa_fetchSpec p))
                = Some node
       end.
Proof.
  unfold fromString. destruct (npmPackageArg E s) as [p|].
  - destruct (fromNameAndVersion_returns (npa_name p)
                (default "latest" (npa_fetchSpec p)) w) as (node & w' & Hnv).
    destruct (fromNameAndVersion_spec _ _ _ _ _ Hnv) as (Hc & Hr & Hf & Ha & _).
    exists (Some node), w'. unfold bind. rewrite Hnv.
    repeat split; try assumption. exists node. auto.
  - exists None, w. repeat split.
Qed.

(** [fromNameAndVersion] leaves the objects that exist as they are. *)
Lemma fromNameAndVersion_deref n v w l :
  l < length (heap w) -> deref (fromNameAndVersion n v w).2 l = deref w l.
Proof.
  intros Hl. unfold fromNameAndVersion.
  destruct (cache w !! fullNameByNameAndVersion n v); [reflexivity|].
  cbn [snd]. change (deref (with_cache _ ?x) l) with (deref x l).
  apply deref_app_l, Hl.
Qed.

Lemma resolved_update_mono w l l' :
  resolved (deref w l') = true ->
  resolved (deref (update l (set_resolved true) w) l') = true.
Proof.
  intros H. destruct (deref_update_cases w l l' (set_resolved true)) as [-> | ->];
    [reflexivity|exact H].
Qed.

(** What seeding a list of specifiers does to a state. *)
Lemma fillCacheByFullNames_spec E : forall fullNames w,
  cache_valid w ->
  (fillCacheByFullNames E fullNames w).1 = Ok tt
  /\ requests (fillCacheByFullNames E fullNames w).2 = requests w
  /\ files (fillCacheByFullNames E fullNames w).2 = files w
  /\ apiCache (fillCacheByFullNames E fullNames w).2 = apiCache w
  /\ cache_valid (fillCacheByFullNames E fullNames w).2
  /\ length (heap w) <= length (heap (fillCacheByFullNames E fullNames w).2)
  /\ (forall l, l < length (heap w) -> resolved (deref w l) = true ->
        resolved (deref (fillCacheByFullNames E fullNames w).2 l) = true)
  /\ (forall key l, cache w !! key = Some l -> key ∉ fullNames ->
        cache (fillCacheByFullNames E fullNames w).2 !! key = Some l)
  /\ (forall s, s ∈ fullNames -> npmPackageArg E s <> None ->
        exists node,
          cache (fillCacheByFullNames E fullNames w).2 !! s = Some node
          /\ node < length (heap (fillCacheByFullNames E fullNames w).2)
          /\ resolved (deref (fillCacheByFullNames E fullNames w).2 node) = true).
Proof.
  induction fullNames as [|s rest IH]; intros w Hvalid.
  - simpl. repeat split; auto.
    intros s Hs. apply elem_of_nil in Hs. contradiction.
  - destruct (npmPackageArg E s) as [p|] eqn:Hnpa.
    + set (n := npa_name p). set (v := default "latest" (npa_fetchSpec p)).
      destruct (fromNameAndVersion_returns n v w) as (node & w1 & Hnv).
      pose proof (fromNameAndVersion_evolves n v w) as [(Hlen1 & _ & Hkeep1) Hv1].
      pose proof (fromNameAndVersion_deref n v w) as Hderef1.
      rewrite Hnv in Hlen1, Hkeep1, Hv1, Hderef1.
      cbn [snd] in Hlen1, Hkeep1, Hv1, Hderef1.
      destruct (fromNameAndVersion_spec _ _ _ _ _ Hnv) as (_ & Hr1 & Hf1 & Ha1 & _).
      pose proof (fromNameAndVersion_valid _ _ _ _ _ Hvalid Hnv) as Hnode.
      set (w2 := update node (set_resolved true) w1).
      set (w3 := with_cache (<[s := node]> (cache w2)) w2).
      assert (Hstep : fillCacheByFullNames E (s :: rest) w
                      = fillCacheByFullNames E rest w3).
      { cbn [fillCacheByFullNames]. unfold bind at 1. unfold fromString.
        rewrite Hnpa. fold n v. unfold bind at 1. rewrite Hnv. reflexivity. }
      rewrite Hstep.
      assert (Hvalid3 : cache_valid w3).
      { intros key l Hk. subst w3 w2. simpl in *. rewrite length_alter.
        destruct (decide (s = key)) as [->|Hne].
        - rewrite lookup_insert_eq in Hk. inversion Hk; subst. exact Hnode.
        - rewrite lookup_insert_ne in Hk by exact Hne.
          apply (Hv1 Hvalid) in Hk. exact Hk. }
      assert (Hlen3 : length (heap w3) = length (heap w1))
        by (subst w3 w2; simpl; apply length_alter).
      assert (Hres3 : resolved (deref w3 node) = true).
      { subst w3. change (resolved (deref w2 node) = true). subst w2.
        rewrite deref_update_same by exact Hnode. reflexivity. }
      destruct (IH w3 Hvalid3)
        as (Hok & Hr & Hf & Ha & Hv' & Hlen & Hres & Hkeep & Hin).
      split; [exact Hok|]. split; [rewrite Hr; exact Hr1|].
      split; [rewrite Hf; exact Hf1|]. split; [rewrite Ha; exact Ha1|].
      split; [exact Hv'|]. split; [lia|]. split; [|split].
      * intros l Hl Hrl. apply Hres; [lia|].
        subst w3. change (resolved (deref w2 l) = true). subst w2.
        apply resolved_update_mono. rewrite Hderef1 by exact Hl. exact Hrl.
      * intros key l Hk Hnot. apply not_elem_of_cons in Hnot as [Hne Hnot].
        apply Hkeep; [|exact Hnot]. subst w3 w2. simpl.
        rewrite lookup_insert_ne by congruence. apply Hkeep1, Hk.
      * intros s' Hs' Hp'. destruct (decide (s' ∈ rest)) as [Hrest|Hrest];
          [apply Hin; assumption|].
        apply elem_of_cons in Hs' as [->|Hs']; [|contradiction].
        exists node. split; [|split].
        -- apply Hkeep; [|exact Hrest]. subst w3. simpl. apply lookup_insert_eq.
        -- lia.
        -- apply Hres; [lia|exact Hres3].
    + assert (Hstep : fillCacheByFullNames E (s :: rest) w
                      = fillCacheByFullNames E rest w).
      { cbn [fillCacheByFullNames]. unfold bind at 1. unfold fromString.
        rewrite Hnpa. reflexivity. }
      rewrite Hstep.
      destruct (IH w Hvalid)
        as (Hok & Hr & Hf & Ha & Hv' & Hlen & Hres & Hkeep & Hin).
      repeat split; try assumption.
      * intros key l Hk Hnot. apply not_elem_of_cons in Hnot as [_ Hnot].
        apply Hkeep; assumption.
      * intros s' Hs' Hp'. apply elem_of_cons in Hs' as [->|Hs'];
          [contradiction|]. apply Hin; assumption.
Qed.

(** X15. [fillCacheByFullNames] on any list, from a state with valid cached
    references: it never throws, makes no request and writes no file;
    unparsable entries are skipped; afterwards every entry that the parser
    accepts is a key of the cache and leads to a node whose [resolved] flag
    is set, and nodes that were resolved before still are. *)
Theorem fillCacheByFullNames_seeds (E : Env) (fullNames : list string) (w : World) :
  cache_valid w ->
  exists w',
    fillCacheByFullNames E fullNames w = (Ok tt, w')
    /\ requests w' = requests w /\ files w' = files w
    /\ cache_valid w'
    /\ (forall l, l < length (heap w) -> resolved (deref w l) = true ->
          resolved (deref w' l) = true)
    /\ (forall s, s ∈ fullNames -> npmPackageArg E s <> None ->
          exists node, cache w' !! s = Some node
                       /\ resolved (deref w' node) = true).
Proof.
  intros Hvalid.
  destruct (fillCacheByFullNames_spec E fullNames w Hvalid)
    as (Hok & Hr & Hf & _ & Hv & _ & Hres & _ & Hin).
  exists (fillCacheByFullNames E fullNames w).2.
  split; [apply injective_projections; [exact Hok|reflexivity]|].
  repeat split; try assumption.
  intros s Hs Hp. destruct (Hin s Hs Hp) as (node & Hc & _ & Hn). eauto.
Qed.

Lemma fillCacheByFullNames_seeds_witness :
  exists w' node,
    fillCacheByFullNames (Lib.env Fixture.net_down)
      ["left-pad@1.3.0"; ""; "@types/node"] emptyWorld = (Ok tt, w')
    /\ requests w' = []
    /\ cache w' !! "@types/node" = Some node
    /\ resolved (deref w' node) = true.
Proof.
  destruct (fillCacheByFullNames_seeds (Lib.env Fixture.net_down)
              ["left-pad@1.3.0"; ""; "@types/node"] emptyWorld)
    as (w' & Hrun & Hr & _ & _ & _ & Hin).
  - intros key l H. simpl in H. rewrite lookup_empty in H. discriminate H.
  - destruct (Hin "@types/node") as (node & Hc & Hres).
    + rewrite !elem_of_cons. auto.
    + discriminate.
    + exists w', node. auto.
Defined.

(** X16. The cache key does not separate the name from the version: when
    two pairs have the same full name, the second call of
    [fromNameAndVersion] returns the object made for the first pair, with
    the first pair's name and version. *)
Theorem fromNameAndVersion_key_collision (n1 v1 n2 v2 : string) (w : World) :
  fullNameByNameAndVersion n1 v1 = fullNameByNameAndVersion n2 v2 ->
  cache w !! fullNameByNameAndVersion n1 v1 = None ->
  exists node w1,
    fromNameAndVersion n1 v1 w = (Ok node, w1)
    /\ fromNameAndVersion n2 v2 w1 = (Ok node, w1)
    /\ name (deref w1 node) = n1
    /\ version (deref w1 node) = v1.
Proof.
  intros Hkey Hc.
  destruct (fromNameAndVersion_fresh n1 v1 w Hc) as (w1 & Hnv & Hobj).
  destruct (fromNameAndVersion_spec _ _ _ _ _ Hnv) as (Hc1 & _).
  exists (length (heap w)), w1. split; [exact Hnv|]. split.
  - apply fromNameAndVersion_cached. rewrite <- Hkey. exact Hc1.
  - rewrite Hobj. split; reflexivity.
Qed.

Lemma fromNameAndVersion_key_collision_witness :
  exists node w1,
    fromNameAndVersion "a@b" "c" emptyWorld = (Ok node, w1)
    /\ fromNameAndVersion "a" "b@c" w1 = (Ok node, w1)
    /\ name (deref w1 node) = "a@b"
    /\ version (deref w1 node) = "c".
Proof.
  apply (fromNameAndVersion_key_collision "a@b" "c" "a" "b@c" emptyWorld).
  - reflexivity.
  - apply lookup_empty.
Defined.

(** ** Further properties: the downloader and self-dependency *)

Lemma download_loop_frame E url : forall remaining w,
  exists k,
    k <= remaining
    /\ (download_loop E remaining url w).2
       = with_requests (replicate k url ++ requests w) w
    /\ (download_loop E remaining url w).1 <> OutOfFuel.
Proof.
  induction remaining as [|n IH]; intros w.
  - exists 0. simpl. rewrite with_requests_id. repeat split; [lia|discriminate].
  - assert (Hrec : exists k, k <= S n
             /\ (download_loop E n url (with_requests (url :: requests w) w)).2
                = with_requests (replicate k url ++ requests w) w
             /\ (download_loop E n url (with_requests (url :: requests w) w)).1
                <> OutOfFuel).
    { destruct (IH (with_requests (url :: requests w) w)) as (k & Hk & Hw & Ho).
      exists (S k). split; [lia|]. split; [|exact Ho].
      rewrite Hw. simpl. rewrite replicate_shift. reflexivity. }
    simpl. destruct (fetch E (length (requests w)) url) as [r|]; [|exact Hrec].
    destruct (buffer r); [|exact Hrec].
    exists 1. split; [lia|]. split; [reflexivity|discriminate].
Qed.

(** [download] leaves the objects and the two caches alone. *)
Lemma download_effects (E : Env) (this : loc) (w : World) :
  heap (download E this w).2 = heap w
  /\ cache (download E this w).2 = cache w
  /\ apiCache (download E this w).2 = apiCache w.
Proof.
  unfold download.
  destruct (negb (truthy_opt (tarballURL (deref w this)))
            || negb (truthy_opt (tgzFileName E (deref w this))));
    [repeat split|].
  unfold bind.
  destruct (download_loop_frame E (default "" (tarballURL (deref w this)))
              MAX_TRIES w) as (k & _ & Hw & _).
  destruct (download_loop E MAX_TRIES (default "" (tarballURL (deref w this))) w)
    as [[data|e|] w1]; cbn [snd] in Hw |- *; subst w1; repeat split.
Qed.

(** X17. [download] changes neither the objects nor the two caches. It
    issues at most [MAX_TRIES] requests, all for the tarball URL, and it
    either returns after writing exactly one file, or throws having written
    none. *)
Theorem download_frame (E : Env) (this : loc) (w : World) :
  let out := (download E this w).1 in
  let w' := (download E this w).2 in
  heap w' = heap w /\ cache w' = cache w /\ apiCache w' = apiCache w
  /\ (exists k, k <= MAX_TRIES
        /\ requests w'
           = replicate k (default "" (tarballURL (deref w this))) ++ requests w)
  /\ ((out = Ok tt /\ exists file, files w' = file :: files w)
      \/ (exists e, out = Throw e /\ files w' = files w)).
Proof.
  intros out w'. subst out w'. unfold download.
  destruct (negb (truthy_opt (tarballURL (deref w this)))
            || negb (truthy_opt (tgzFileName E (deref w this)))).
  - cbn [fst snd]. repeat split.
    + exists 0. split; [lia|reflexivity].
    + right. eauto.
  - unfold bind.
    destruct (download_loop_frame E (default "" (tarballURL (deref w this)))
                MAX_TRIES w) as (k & Hk & Hw & Ho).
    destruct (download_loop E MAX_TRIES (default "" (tarballURL (deref w this))) w)
      as [[data|e|] w1]; cbn [fst snd] in Hw, Ho |- *; subst w1.
    + unfold writeFileSync, modify. cbn [fst snd]. repeat split.
      * exists k. split; [exact Hk|reflexivity].
      * left. split; [reflexivity|]. eexists. reflexivity.
    + repeat split.
      * exists k. split; [exact Hk|reflexivity].
      * right. eauto.
    + contradiction.
Qed.

(** X18. When every one of the [MAX_TRIES] download attempts is rejected,
    [download] throws after ten requests and writes nothing. The thrown
    value is the text between the double quotes of the source, back quotes
    and placeholder included: the package name is not filled in. *)
Theorem download_exhausted (E : Env) (this : loc) (w : World) (url : string) :
  tarballURL (deref w this) = Some url ->
  url <> "" ->
  path_basename E url <> "" ->
  (forall i, i < MAX_TRIES ->
     download_retried (fetch E (length (requests w) + i) url) = true) ->
  download E this w
  = (Throw (ThrowStr "`downloading ${this} failed`"),
     with_requests (replicate MAX_TRIES url ++ requests w) w).
Proof.
  intros Hu Hne Hb Hk.
  rewrite (download_guard_passed E this w url Hu Hne Hb). unfold bind.
  replace MAX_TRIES with (MAX_TRIES + 0) at 1 by lia.
  rewrite download_loop_retried by exact Hk. reflexivity.
Qed.

Lemma download_exhausted_witness :
  download (Lib.env Fixture.net_down) 0 Fixture.with_tarball
  = (Throw (ThrowStr "`downloading ${this} failed`"),
     with_requests
       (replicate MAX_TRIES
          "https://registry.npmjs.org/left-pad/-/left-pad-1.3.0.tgz"
        ++ requests Fixture.with_tarball)
       Fixture.with_tarball).
Proof.
  apply (download_exhausted (Lib.env Fixture.net_down) 0 Fixture.with_tarball).
  - reflexivity.
  - discriminate.
  - vm_compute. discriminate.
  - intros i Hi. reflexivity.
Defined.

Lemma apiRequest_cache E n v w : cache (apiRequest E n v w).2 = cache w.
Proof. destruct (apiRequest_effects E n v w) as (_ & H & _). exact H. Qed.

(** X19. A package that lists itself gets no edge to itself. When the one
    entry of the manifest resolves, without a request, to the version under
    which [this] is cached, [getDependencies] returns the empty array for
    any recursion budget of at least one, sets [this.dependencies] to the
    empty array and leaves [this.dependents] as it was. *)
Theorem getDependencies_self_dependency (E : Env) (fuel : nat) (this : loc)
    (w w1 : World) (body : APIResponse) (n sv v : string) :
  this < length (heap w) ->
  apiRequest E (name (deref w this)) (Some (version (deref w this)))
    (update this (set_loading true) w) = (Ok (Some body), w1) ->
  api_dependencies body = Some [(n, sv)] ->
  (forall w0, resolveVersion E n sv w0 = (Ok v, w0)) ->
  cache w !! fullNameByNameAndVersion n v = Some this ->
  exists w',
    getDependencies E (S fuel) this w = (Ok [], w')
    /\ dependencies (deref w' this) = []
    /\ dependents (deref w' this) = dependents (deref w this).
Proof.
  intros Hthis Hreq Hdeps Hres Hc.
  rewrite (getDependencies_on_response _ _ _ _ _ _ Hreq). cbn zeta.
  rewrite Hdeps.
  assert (Hheap : heap w1 = heap (update this (set_loading true) w)).
  { pose proof (apiRequest_heap E (name (deref w this))
                  (Some (version (deref w this)))
                  (update this (set_loading true) w)) as H.
    rewrite Hreq in H. exact H. }
  assert (Hcache : cache w1 = cache w).
  { pose proof (apiRequest_cache E (name (deref w this))
                  (Some (version (deref w this)))
                  (update this (set_loading true) w)) as H.
    rewrite Hreq in H. exact H. }
  set (w2 := update this (set_tarballURL (tarball <$> api_dist body)) w1).
  assert (Hlen2 : this < length (heap w2)).
  { subst w2. simpl. rewrite length_alter, Hheap. simpl. rewrite length_alter.
    exact Hthis. }
  assert (Hloop : getDependencies_loop E (S fuel) this [(n, sv)] [] w2
                  = (Ok [], w2)).
  { cbn [getDependencies_loop]. unfold bind at 1.
    rewrite (fromSemanticVersion_resolved _ _ _ _ _ _ (Hres w2)).
    rewrite (fromNameAndVersion_cached n v w2 this)
      by (subst w2; simpl; rewrite Hcache; exact Hc).
    unfold bind at 1. unfold isAncestorEqualM.
    rewrite isAncestorEqual_refl. reflexivity. }
  rewrite Hloop. eexists. split; [reflexivity|]. split.
  - rewrite deref_update_same by exact Hlen2. reflexivity.
  - rewrite (deref_update_field dependents) by reflexivity. subst w2.
    rewrite (deref_update_field dependents) by reflexivity.
    unfold deref at 1. rewrite Hheap.
    apply (deref_update_field dependents w). reflexivity.
Qed.

Lemma getDependencies_self_dependency_witness :
  exists w',
    getDependencies
      (Lib.env (fun _ _ =>
                  Some (Fixture.respond (Fixture.manifest [("a", "^1.0.0")]))))
      1 0 (fromNameAndVersion "a" "1.0.0" emptyWorld).2
    = (Ok [], w')
    /\ dependencies (deref w' 0) = []
    /\ dependents (deref w' 0) = [].
Proof.
  refine (getDependencies_self_dependency
            (Lib.env (fun _ _ =>
                        Some (Fixture.respond (Fixture.manifest [("a", "^1.0.0")]))))
            0 0 (fromNameAndVersion "a" "1.0.0" emptyWorld).2
            _ (Fixture.manifest [("a", "^1.0.0")]) "a" "^1.0.0" "1.0.0"
            _ _ _ _ _).
  - vm_compute. lia.
  - vm_compute. reflexivity.
  - reflexivity.
  - intros w0. reflexivity.
  - vm_compute. reflexivity.
Defined.

(** ** Further properties: the dependents stay free of cycles *)

Lemma reaches_sound w : forall fuel x t,
  reaches fuel w x t = true -> ancestor w x t.
Proof.
  induction fuel as [|fuel IH]; intros x t H; [discriminate H|].
  simpl in H. apply orb_true_iff in H as [H|H].
  - apply Nat.eqb_eq in H. subst t. constructor.
  - apply existsb_exists in H as (d & Hd & Hrec).
    econstructor; [apply list_elem_of_In; exact Hd|apply IH, Hrec].
Qed.

Lemma reaches_complete w rank :
  (forall n d, d ∈ dependents (deref w n) -> rank d < rank n) ->
  forall x t, ancestor w x t ->
  forall fuel, rank x < fuel -> reaches fuel w x t = true.
Proof.
  intros Hrank x t Hanc. induction Hanc as [x|x d t Hd Hanc IH]; intros fuel Hlt.
  - destruct fuel; [lia|]. simpl. rewrite Nat.eqb_refl. reflexivity.
  - destruct fuel; [lia|]. simpl. apply orb_true_iff. right.
    apply existsb_exists. exists d. split; [apply list_elem_of_In; exact Hd|].
    apply IH. specialize (Hrank _ _ Hd). lia.
Qed.

Lemma ancestor_trans w x y z : ancestor w x y -> ancestor w y z -> ancestor w x z.
Proof.
  intros Hxy Hyz. induction Hxy as [x|x d y Hd Hxy IH]; [exact Hyz|].
  econstructor; [exact Hd|apply IH, Hyz].
Qed.

(** States whose nodes have the same dependents are acyclic together. *)
Lemma acyclic_ext w w' :
  (forall l, dependents (deref w' l) = dependents (deref w l)) ->
  acyclic w -> acyclic w'.
Proof.
  intros Hsame [rank Hrank]. exists rank. intros n d Hd.
  rewrite Hsame in Hd. apply Hrank, Hd.
Qed.

Lemma fromNameAndVersion_dependents n v w l :
  dependents (deref (fromNameAndVersion n v w).2 l) = dependents (deref w l).
Proof.
  unfold fromNameAndVersion.
  destruct (cache w !! fullNameByNameAndVersion n v); [reflexivity|].
  cbn [snd]. change (deref (with_cache _ ?x) l) with (deref x l).
  destruct (decide (l < length (heap w))) as [Hl|Hl];
    [rewrite deref_app_l by exact Hl; reflexivity|].
  unfold deref; cbn [heap with_heap]. rewrite !list_lookup_total_alt.
  rewrite lookup_app_r by lia.
  rewrite (lookup_ge_None_2 (heap w) l) by lia.
  destruct (l - length (heap w)) as [|m]; reflexivity.
Qed.

Lemma resolveVersion_heap E n sv w : heap (resolveVersion E n sv w).2 = heap w.
Proof.
  unfold resolveVersion. destruct (String.eqb sv "*"); [reflexivity|].
  destruct (includes sv "<" || includes sv "-"); [|reflexivity].
  unfold bind. pose proof (apiRequest_heap E n None w) as H.
  destruct (apiRequest E n None w) as [[[r|]| |] w1]; try exact H.
  destruct (api_versions r); exact H.
Qed.

Lemma fromSemanticVersion_dependents E n sv w l :
  dependents (deref (fromSemanticVersion E n sv w).2 l) = dependents (deref w l).
Proof.
  unfold fromSemanticVersion, bind.
  pose proof (resolveVersion_heap E n sv w) as H.
  destruct (resolveVersion E n sv w) as [[v| |] w1]; cbn [snd] in H |- *;
    try (unfold deref; rewrite H; reflexivity).
  rewrite fromNameAndVersion_dependents. unfold deref. rewrite H. reflexivity.
Qed.

(** The only edge that [addDependent] can add. *)
Lemma addDependent_edges dep this w n d :
  d ∈ dependents (deref (addDependent dep this w).2 n) ->
  d ∈ dependents (deref w n) \/ (n = dep /\ d = this).
Proof.
  unfold addDependent.
  destruct (includes_loc (dependents (deref w dep)) this); [auto|].
  cbn [snd]. destruct (decide (dep = n)) as [<-|Hne].
  - destruct (deref_update_cases w dep dep
                (fun p => set_dependents (dependents p ++ [this]) p)) as [-> | ->];
      [|auto].
    cbn [dependents set_dependents]. intros Hd.
    apply elem_of_app in Hd as [Hd|Hd]; [auto|].
    apply list_elem_of_singleton in Hd. auto.
  - rewrite deref_update_other by exact Hne. auto.
Qed.

(** Recording [this] as a dependent of a node that is not among the
    ancestors of [this] closes no cycle. *)
Lemma addDependent_acyclic dep this w :
  acyclic w -> ~ ancestor w this dep -> acyclic (addDependent dep this w).2.
Proof.
  intros [rank Hrank] Hnot.
  exists (fun x => rank x
                   + if reaches (S (rank x)) w x dep then S (rank this) else 0).
  intros n d Hd. apply addDependent_edges in Hd as [Hd|[-> ->]].
  - specialize (Hrank _ _ Hd) as Hlt.
    destruct (reaches (S (rank d)) w d dep) eqn:Hrd.
    + assert (Hn : reaches (S (rank n)) w n dep = true).
      { apply (reaches_complete w rank Hrank); [|lia].
        econstructor; [exact Hd|]. eapply reaches_sound, Hrd. }
      rewrite Hn. lia.
    + destruct (reaches (S (rank n)) w n dep); lia.
  - assert (Hdep : reaches (S (rank dep)) w dep dep = true)
      by (simpl; rewrite Nat.eqb_refl; reflexivity).
    rewrite Hdep.
    destruct (reaches (S (rank this)) w this dep) eqn:Hthis; [|lia].
    exfalso. apply Hnot. eapply reaches_sound, Hthis.
Qed.

Lemma isAncestorEqual_false_not_ancestor fuel w this dep :
  isAncestorEqual fuel w this dep = Some false -> ~ ancestor w this dep.
Proof.
  intros H Hanc.
  exact (isAncestorEqual_false_ancestors w fuel this dep H dep Hanc eq_refl).
Qed.

Section DependentsInvariant.

(** A property of states that only depends on the dependents of the nodes,
    and that survives the recording of a dependent after a negative
    ancestor check, survives [getDependencies]. *)
Variable Q : World -> Prop.
Hypothesis Q_ext : forall w w',
  (forall l, dependents (deref w' l) = dependents (deref w l)) -> Q w -> Q w'.
Hypothesis Q_add : forall fuel dep this w,
  isAncestorEqual fuel w this dep = Some false ->
  Q w -> Q (addDependent dep this w).2.

Lemma update_Q l f w :
  (forall p, dependents (f p) = dependents p) -> Q w -> Q (update l f w).
Proof.
  intros Hf. apply Q_ext. intros l'.
  apply (deref_update_field dependents). exact Hf.
Qed.

Lemma getDependencies_loop_Q E fuel this : forall entries result w,
  Q w -> Q (getDependencies_loop E fuel this entries result w).2.
Proof.
  induction entries as [|[n sv] rest IH]; intros result w Hw; [exact Hw|].
  cbn [getDependencies_loop]. unfold bind at 1.
  assert (H1 : Q (fromSemanticVersion E n sv w).2)
    by (eapply Q_ext; [apply fromSemanticVersion_dependents|exact Hw]).
  destruct (fromSemanticVersion E n sv w) as [[dep| |] w1]; try exact H1.
  cbn [snd] in H1. unfold bind at 1. unfold isAncestorEqualM.
  destruct (isAncestorEqual fuel w1 this dep) as [[|]|] eqn:Hanc; try exact H1.
  - apply IH, H1.
  - unfold bind. pose proof (Q_add _ _ _ _ Hanc H1) as H2.
    destruct (addDependent dep this w1) as [[[]| |] w2]; cbn [snd] in H2;
      [apply IH, H2|exact H2|exact H2].
Qed.

Lemma getDependencies_Q E fuel this w :
  Q w -> Q (getDependencies E fuel this w).2.
Proof.
  intros Hw. unfold getDependencies.
  assert (H0 : Q (update this (set_loading true) w))
    by (apply update_Q; [reflexivity|exact Hw]).
  set (w0 := update this (set_loading true) w) in *.
  assert (H1 : Q (apiRequest E (name (deref w0 this))
                    (Some (version (deref w0 this))) w0).2).
  { eapply Q_ext; [|exact H0]. intros l. unfold deref.
    rewrite apiRequest_heap. reflexivity. }
  destruct (apiRequest E (name (deref w0 this))
              (Some (version (deref w0 this))) w0)
    as [[[body|]|e|] w1]; cbn [snd] in H1; try exact H1.
  - assert (H2 : Q (update this
                   (set_tarballURL (tarball <$> api_dist body)) w1))
      by (apply update_Q; [reflexivity|exact H1]).
    destruct (api_dependencies body) as [deps|]; [|exact H2].
    pose proof (getDependencies_loop_Q E fuel this deps [] _ H2) as H3.
    destruct (getDependencies_loop E fuel this deps []
                (update this (set_tarballURL (tarball <$> api_dist body)) w1))
      as [[result| |] w3]; cbn [snd] in H3 |- *; try exact H3.
    apply update_Q; [reflexivity|exact H3].
  - destruct (decide (e = ThrowStr Errors.REGISTRY_ERROR)); cbn [snd];
      [exact H1|].
    apply update_Q; [reflexivity|]. apply update_Q; [reflexivity|exact H1].
Qed.

End DependentsInvariant.

Lemma getDependencies_acyclic E fuel this w :
  acyclic w -> acyclic (getDependencies E fuel this w).2.
Proof.
  apply (getDependencies_Q acyclic acyclic_ext).
  intros fuel' dep this' w' Hanc Hw'. apply addDependent_acyclic; [exact Hw'|].
  eapply isAncestorEqual_false_not_ancestor, Hanc.
Qed.

(** X20. [getDependencies] keeps the dependents free of cycles, whatever
    its outcome: an edge is recorded only towards a node that the ancestor
    check has just answered [false] for. In the state it leaves,
    [isAncestorEqual] therefore returns for every pair of nodes, given
    enough recursion depth. *)
Theorem getDependencies_keeps_acyclic (E : Env) (fuel : nat) (this : loc)
    (w : World) :
  acyclic w ->
  acyclic (getDependencies E fuel this w).2
  /\ forall n pkg, exists depth b,
       isAncestorEqual depth (getDependencies E fuel this w).2 n pkg = Some b.
Proof.
  intros Hw. pose proof (getDependencies_acyclic E fuel this w Hw) as H.
  split; [exact H|]. intros n pkg. destruct H as [rank Hrank].
  exists (S (rank n)). apply (isAncestorEqual_ranked _ rank Hrank). lia.
Qed.

Lemma getDependencies_keeps_acyclic_witness :
  acyclic (getDependencies (Lib.env Fixture.net_cycle) 2 0
             (fromNameAndVersion "a" "1.0.0" emptyWorld).2).2.
Proof.
  apply (getDependencies_keeps_acyclic (Lib.env Fixture.net_cycle) 2 0
           (fromNameAndVersion "a" "1.0.0" emptyWorld).2).
  exists (fun _ => 0). intros n d Hd.
  rewrite fromNameAndVersion_dependents in Hd.
  assert (Hnil : dependents (deref emptyWorld n) = [])
    by (unfold deref; simpl; destruct n; reflexivity).
  rewrite Hnil in Hd. apply elem_of_nil in Hd. contradiction.
Defined.

(** ** Further properties: the states the program reaches *)

Lemma fromString_state E s w :
  (fromString E s w).2 = w
  \/ exists n v, (fromString E s w).2 = (fromNameAndVersion n v w).2.
Proof.
  unfold fromString. destruct (npmPackageArg E s) as [p|]; [|left; reflexivity].
  right. exists (npa_name p), (default "latest" (npa_fetchSpec p)).
  unfold bind.
  destruct (fromNameAndVersion (npa_name p) (default "latest" (npa_fetchSpec p)) w)
    as [[l| |] w1]; reflexivity.
Qed.

Lemma fillCacheByFullNames_dependents E : forall fullNames w l,
  dependents (deref (fillCacheByFullNames E fullNames w).2 l)
  = dependents (deref w l).
Proof.
  induction fullNames as [|s rest IH]; intros w l; [reflexivity|].
  cbn [fillCacheByFullNames]. unfold bind at 1. unfold fromString.
  destruct (npmPackageArg E s) as [p|]; [|apply IH].
  unfold bind at 1.
  pose proof (fromNameAndVersion_dependents (npa_name p)
                (default "latest" (npa_fetchSpec p)) w l) as H.
  destruct (fromNameAndVersion (npa_name p) (default "latest" (npa_fetchSpec p)) w)
    as [[node| |] w1]; cbn [snd] in H; try exact H.
  unfold ret. unfold bind at 1. unfold bind at 1. unfold modify.
  rewrite IH. change (deref (with_cache _ ?x) l) with (deref x l).
  rewrite (deref_update_field dependents) by reflexivity. exact H.
Qed.

Lemma addDependent_NoDup dep this w :
  (forall l, NoDup (dependents (deref w l))) ->
  forall l, NoDup (dependents (deref (addDependent dep this w).2 l)).
Proof.
  intros Hnd l. unfold addDependent.
  destruct (includes_loc (dependents (deref w dep)) this) eqn:Hin; [apply Hnd|].
  cbn [snd].
  destruct (deref_update_cases w dep l
              (fun p => set_dependents (dependents p ++ [this]) p)) as [H|H];
    [|rewrite H; apply Hnd].
  destruct (decide (dep = l)) as [<-|Hne];
    [|rewrite deref_update_other by exact Hne; apply Hnd].
  rewrite H. cbn [dependents set_dependents].
  apply NoDup_app. split; [apply Hnd|]. split; [|apply NoDup_singleton].
  intros x Hx Hx'. apply list_elem_of_singleton in Hx'. subst x.
  apply includes_loc_false in Hin. contradiction.
Qed.

Lemma emptyWorld_dependents l : dependents (deref emptyWorld l) = [].
Proof. unfold deref; simpl. destruct l; reflexivity. Qed.

(** The three invariants, along the calls that make a state reachable. *)
Lemma reachable_invariants E w :
  reachable E w ->
  cache_valid w /\ acyclic w /\ (forall l, NoDup (dependents (deref w l))).
Proof.
  induction 1 as [|w n v _ (Hv & Ha & Hn)|w n sv _ (Hv & Ha & Hn)
                  |w s _ (Hv & Ha & Hn)|w names _ (Hv & Ha & Hn)
                  |w fuel this _ (Hv & Ha & Hn) Hthis
                  |w this _ (Hv & Ha & Hn) Hthis].
  - split; [|split].
    + intros key l H. simpl in H. rewrite lookup_empty in H. discriminate H.
    + exists (fun _ => 0). intros n d Hd. rewrite emptyWorld_dependents in Hd.
      apply elem_of_nil in Hd. contradiction.
    + intros l. rewrite emptyWorld_dependents. constructor.
  - split; [apply fromNameAndVersion_evolves, Hv|]. split.
    + eapply acyclic_ext; [apply fromNameAndVersion_dependents|exact Ha].
    + intros l. rewrite fromNameAndVersion_dependents. apply Hn.
  - split; [apply fromSemanticVersion_evolves, Hv|]. split.
    + eapply acyclic_ext; [apply fromSemanticVersion_dependents|exact Ha].
    + intros l. rewrite fromSemanticVersion_dependents. apply Hn.
  - destruct (fromString_state E s w) as [->|(n & v & ->)]; [auto|].
    split; [apply fromNameAndVersion_evolves, Hv|]. split.
    + eapply acyclic_ext; [apply fromNameAndVersion_dependents|exact Ha].
    + intros l. rewrite fromNameAndVersion_dependents. apply Hn.
  - destruct (fillCacheByFullNames_spec E names w Hv) as (_ & _ & _ & _ & Hv' & _).
    split; [exact Hv'|]. split.
    + eapply acyclic_ext; [apply fillCacheByFullNames_dependents|exact Ha].
    + intros l. rewrite fillCacheByFullNames_dependents. apply Hn.
  - split; [apply getDependencies_keeps, Hv|]. split.
    + apply getDependencies_acyclic, Ha.
    + apply (getDependencies_Q (fun w0 => forall l, NoDup (dependents (deref w0 l)))).
      * intros w1 w2 Hsame H1 l. rewrite Hsame. apply H1.
      * intros fuel' dep this' w1 _ H1. apply addDependent_NoDup, H1.
      * exact Hn.
  - destruct (download_effects E this w) as (Hh & Hc & _).
    split; [|split].
    + intros key l Hk. rewrite Hh. rewrite Hc in Hk. eapply Hv, Hk.
    + eapply acyclic_ext; [|exact Ha]. intros l. unfold deref. rewrite Hh.
      reflexivity.
    + intros l. unfold deref. rewrite Hh. apply Hn.
Qed.

(** X21. In every state that the program reaches from an empty process
    through [fromNameAndVersion], [fromSemanticVersion], [fromString],
    [fillCacheByFullNames], [getDependencies] and [download]: every cached
    reference is an object, no node is recorded twice among the dependents
    of a node, the dependents form no cycle, and so [isAncestorEqual]
    returns for every pair of nodes. *)
Theorem reachable_well_formed (E : Env) (w : World) :
  reachable E w ->
  cache_valid w
  /\ (forall l, NoDup (dependents (deref w l)))
  /\ acyclic w
  /\ (forall n pkg, exists depth b, isAncestorEqual depth w n pkg = Some b).
Proof.
  intros Hreach. destruct (reachable_invariants E w Hreach) as (Hv & Ha & Hn).
  split; [exact Hv|]. split; [exact Hn|]. split; [exact Ha|].
  intros n pkg. destruct Ha as [rank Hrank].
  exists (S (rank n)). apply (isAncestorEqual_ranked _ rank Hrank). lia.
Qed.

Lemma reachable_well_formed_witness :
  cache_valid
    (getDependencies (Lib.env Fixture.net_cycle) 2 0
       (fromNameAndVersion "a" "1.0.0" emptyWorld).2).2.
Proof.
  apply (reachable_well_formed (Lib.env Fixture.net_cycle)).
  apply reachable_getDependencies.
  - apply reachable_fromNameAndVersion, reachable_empty.
  - vm_compute. lia.
Defined.

Lemma fromNameAndVersion_dependencies n v w l :
  dependencies (deref (fromNameAndVersion n v w).2 l) = dependencies (deref w l).
Proof.
  unfold fromNameAndVersion.
  destruct (cache w !! fullNameByNameAndVersion n v); [reflexivity|].
  cbn [snd]. change (deref (with_cache _ ?x) l) with (deref x l).
  destruct (decide (l < length (heap w))) as [Hl|Hl];
    [rewrite deref_app_l by exact Hl; reflexivity|].
  unfold deref; cbn [heap with_heap]. rewrite !list_lookup_total_alt.
  rewrite lookup_app_r by lia.
  rewrite (lookup_ge_None_2 (heap w) l) by lia.
  destruct (l - length (heap w)) as [|m]; reflexivity.
Qed.

Lemma fromSemanticVersion_dependencies E n sv w l :
  dependencies (deref (fromSemanticVersion E n sv w).2 l)
  = dependencies (deref w l).
Proof.
  unfold fromSemanticVersion, bind.
  pose proof (resolveVersion_heap E n sv w) as H.
  destruct (resolveVersion E n sv w) as [[v| |] w1]; cbn [snd] in H |- *;
    try (unfold deref; rewrite H; reflexivity).
  rewrite fromNameAndVersion_dependencies. unfold deref. rewrite H. reflexivity.
Qed.

Lemma addDependent_dependencies dep this w l :
  dependencies (deref (addDependent dep this w).2 l) = dependencies (deref w l).
Proof.
  unfold addDependent.
  destruct (includes_loc (dependents (deref w dep)) this); [reflexivity|].
  apply (deref_update_field dependencies). reflexivity.
Qed.

(** The loop of [getDependencies] assigns no [dependencies] field. *)
Lemma getDependencies_loop_dependencies E fuel this : forall entries result w l,
  dependencies (deref (getDependencies_loop E fuel this entries result w).2 l)
  = dependencies (deref w l).
Proof.
  induction entries as [|[n sv] rest IH]; intros result w l; [reflexivity|].
  cbn [getDependencies_loop]. unfold bind at 1.
  pose proof (fromSemanticVersion_dependencies E n sv w l) as H1.
  destruct (fromSemanticVersion E n sv w) as [[dep| |] w1]; try exact H1.
  cbn [snd] in H1. unfold bind at 1. unfold isAncestorEqualM.
  destruct (isAncestorEqual fuel w1 this dep) as [[|]|]; try exact H1.
  - rewrite IH. exact H1.
  - unfold bind. pose proof (addDependent_dependencies dep this w1 l) as H2.
    destruct (addDependent dep this w1) as [[[]| |] w2]; cbn [snd] in H2 |- *.
    + rewrite IH, H2. exact H1.
    + rewrite H2. exact H1.
    + rewrite H2. exact H1.
Qed.

Lemma fillCacheByFullNames_dependencies E : forall fullNames w l,
  dependencies (deref (fillCacheByFullNames E fullNames w).2 l)
  = dependencies (deref w l).
Proof.
  induction fullNames as [|s rest IH]; intros w l; [reflexivity|].
  cbn [fillCacheByFullNames]. unfold bind at 1. unfold fromString.
  destruct (npmPackageArg E s) as [p|]; [|apply IH].
  unfold bind at 1.
  pose proof (fromNameAndVersion_dependencies (npa_name p)
                (default "latest" (npa_fetchSpec p)) w l) as H.
  destruct (fromNameAndVersion (npa_name p) (default "latest" (npa_fetchSpec p)) w)
    as [[node| |] w1]; cbn [snd] in H; try exact H.
  unfold ret. unfold bind at 1. unfold bind at 1. unfold modify.
  rewrite IH. change (deref (with_cache _ ?x) l) with (deref x l).
  rewrite (deref_update_field dependencies) by reflexivity. exact H.
Qed.

(** A later state that assigned no [dependencies] keeps the edges
    mirrored. *)
Lemma mirrored_kept w w' :
  (forall l, dependencies (deref w' l) = dependencies (deref w l)) ->
  preserved w w' -> mirrored w -> mirrored w'.
Proof.
  intros Hsame Hp Hm l d Hd. rewrite Hsame in Hd.
  eapply preserved_dependent; [exact Hp|apply Hm, Hd].
Qed.

Lemma preserved_same_heap w w' : heap w' = heap w -> cache w' = cache w -> preserved w w'.
Proof. intros Hh Hc. apply (evolves_same w w' Hh Hc). Qed.

Lemma getDependencies_mirrored E fuel this w :
  cache_valid w -> mirrored w -> mirrored (getDependencies E fuel this w).2.
Proof.
  intros Hvalid Hm.
  pose proof (getDependencies_keeps E fuel this w) as [Hkeep _].
  set (w0 := update this (set_loading true) w).
  assert (H0 : evolves w w0) by (apply update_evolves; reflexivity).
  assert (D0 : forall l, dependencies (deref w0 l) = dependencies (deref w l))
    by (intros l; apply (deref_update_field dependencies); reflexivity).
  pose proof (apiRequest_evolves E (name (deref w this))
                (Some (version (deref w this))) w0) as H1.
  pose proof (apiRequest_heap E (name (deref w this))
                (Some (version (deref w this))) w0) as Hh1.
  destruct (apiRequest E (name (deref w this)) (Some (version (deref w this))) w0)
    as [[[body|]|e|] w1] eqn:Hreq; cbn [snd] in H1, Hh1.
  - revert Hkeep. rewrite (getDependencies_on_response _ _ _ _ _ _ Hreq).
    cbn zeta.
    set (w2 := update this (set_tarballURL (tarball <$> api_dist body)) w1).
    assert (H2 : evolves w1 w2) by (apply update_evolves; reflexivity).
    assert (H02 : evolves w w2)
      by (eapply evolves_trans; [exact H0|eapply evolves_trans; eassumption]).
    assert (D2 : forall l, dependencies (deref w2 l) = dependencies (deref w l)).
    { intros l. subst w2. rewrite (deref_update_field dependencies) by reflexivity.
      unfold deref at 1. rewrite Hh1. apply D0. }
    destruct (api_dependencies body) as [deps|].
    + pose proof (getDependencies_loop_evolves E fuel this deps [] w2) as H3.
      pose proof (getDependencies_loop_dependencies E fuel this deps [] w2) as D3.
      destruct (getDependencies_loop E fuel this deps [] w2)
        as [[res| |] w3] eqn:Hloop; cbn [snd] in H3, D3 |- *; intros Hkeep.
      * destruct (getDependencies_loop_result _ _ _ _ _ _ _ _
                    (proj2 H02 Hvalid) ltac:(intros d Hd;
                      apply elem_of_nil in Hd; contradiction) Hloop)
          as (Hres & _).
        assert (Hm3 : mirrored w3).
        { apply (mirrored_kept w w3); [|apply (evolves_trans _ _ _ H02 H3)|exact Hm].
          intros l. rewrite D3. apply D2. }
        intros l d Hd. simpl. rewrite length_alter.
        rewrite (deref_update_field dependents) by reflexivity.
        destruct (decide (this = l)) as [<-|Hne].
        -- destruct (decide (this < length (heap w3))) as [Hlt|Hge].
           ++ rewrite deref_update_same in Hd by exact Hlt.
              cbn [dependencies set_dependencies] in Hd. apply Hres, Hd.
           ++ apply Hm3. revert Hd.
              unfold deref, update; cbn [heap with_heap].
              rewrite !list_lookup_total_alt, list_lookup_alter_eq.
              rewrite (lookup_ge_None_2 (heap w3) this) by lia. auto.
        -- rewrite deref_update_other in Hd by exact Hne. apply Hm3, Hd.
      * apply (mirrored_kept w w3); [|exact Hkeep|exact Hm].
        intros l. rewrite D3. apply D2.
      * apply (mirrored_kept w w3); [|exact Hkeep|exact Hm].
        intros l. rewrite D3. apply D2.
    + cbn [snd]. intros Hkeep'.
      apply (mirrored_kept w w2); [exact D2|exact Hkeep'|exact Hm].
  - revert Hkeep. unfold getDependencies.
    rewrite !(deref_update_field name), !(deref_update_field version)
      by reflexivity.
    fold w0. rewrite Hreq. cbn [snd]. intros Hkeep.
    apply (mirrored_kept w w1); [|exact Hkeep|exact Hm].
    intros l. unfold deref at 1. rewrite Hh1. apply D0.
  - revert Hkeep. rewrite (getDependencies_on_throw _ _ _ _ _ _ Hreq).
    destruct (decide (e = ThrowStr Errors.REGISTRY_ERROR)); cbn [snd];
      intros Hkeep.
    + apply (mirrored_kept w w1); [|exact Hkeep|exact Hm].
      intros l. unfold deref at 1. rewrite Hh1. apply D0.
    + apply (mirrored_kept w _); [|exact Hkeep|exact Hm].
      intros l. rewrite !(deref_update_field dependencies) by reflexivity.
      unfold deref at 1. rewrite Hh1. apply D0.
  - revert Hkeep. unfold getDependencies.
    rewrite !(deref_update_field name), !(deref_update_field version)
      by reflexivity.
    fold w0. rewrite Hreq. cbn [snd]. intros Hkeep.
    apply (mirrored_kept w w1); [|exact Hkeep|exact Hm].
    intros l. unfold deref at 1. rewrite Hh1. apply D0.
Qed.

(** X22. In every state that the program reaches, each dependency edge is
    mirrored: a node listed in [n.dependencies] is an object of the heap
    and has [n] among its dependents. *)
Theorem reachable_edges_mirrored (E : Env) (w : World) :
  reachable E w ->
  forall n d, d ∈ dependencies (deref w n) ->
    d < length (heap w) /\ n ∈ dependents (deref w d).
Proof.
  intros Hreach. change (mirrored w).
  induction Hreach as [|w n v Hr IH|w n sv Hr IH|w s Hr IH|w names Hr IH
                       |w fuel this Hr IH Hthis|w this Hr IH Hthis].
  - intros l d Hd. unfold deref in Hd; simpl in Hd. destruct l;
      apply elem_of_nil in Hd; contradiction.
  - apply (mirrored_kept w); [|apply fromNameAndVersion_evolves|exact IH].
    intros l. apply fromNameAndVersion_dependencies.
  - apply (mirrored_kept w); [|apply fromSemanticVersion_evolves|exact IH].
    intros l. apply fromSemanticVersion_dependencies.
  - destruct (fromString_state E s w) as [->|(n & v & ->)]; [exact IH|].
    apply (mirrored_kept w); [|apply fromNameAndVersion_evolves|exact IH].
    intros l. apply fromNameAndVersion_dependencies.
  - destruct (reachable_invariants E w Hr) as (Hv & _).
    destruct (fillCacheByFullNames_spec E names w Hv)
      as (_ & _ & _ & _ & _ & Hlen & _).
    intros l d Hd. rewrite fillCacheByFullNames_dependencies in Hd.
    rewrite fillCacheByFullNames_dependents.
    destruct (IH l d Hd) as [Hd1 Hd2]. split; [lia|exact Hd2].
  - destruct (reachable_invariants E w Hr) as (Hv & _).
    apply getDependencies_mirrored; assumption.
  - destruct (download_effects E this w) as (Hh & Hc & _).
    apply (mirrored_kept w); [|apply preserved_same_heap; assumption|exact IH].
    intros l. unfold deref. rewrite Hh. reflexivity.
Qed.

Lemma reachable_edges_mirrored_witness :
  1 < length (heap (getDependencies (Lib.env Fixture.net_cycle) 2 0
                      (fromNameAndVersion "a" "1.0.0" emptyWorld).2).2)
  /\ 0 ∈ dependents
           (deref (getDependencies (Lib.env Fixture.net_cycle) 2 0
                     (fromNameAndVersion "a" "1.0.0" emptyWorld).2).2 1).
Proof.
  apply (reachable_edges_mirrored (Lib.env Fixture.net_cycle)).
  - apply reachable_getDependencies.
    + apply reachable_fromNameAndVersion, reachable_empty.
    + vm_compute. lia.
  - vm_compute. apply list_elem_of_singleton. reflexivity.
Defined.

(** ** Further properties: one object per full name *)

Section StepInvariant.

(** A property of states that survives an assignment keeping name and
    version, a call of [fromNameAndVersion], a new cache entry, and any
    change outside the heap and the node cache, survives the expansion and
    the seeding. *)
Variable R : World -> Prop.
Hypothesis R_update : forall l f w,
  (forall p, name (f p) = name p) -> (forall p, version (f p) = version p) ->
  R w -> R (update l f w).
Hypothesis R_fromNameAndVersion : forall n v w,
  R w -> R (fromNameAndVersion n v w).2.
Hypothesis R_insert : forall key node w,
  R w -> R (with_cache (<[key := node]> (cache w)) w).
Hypothesis R_same : forall w w',
  heap w' = heap w -> cache w' = cache w -> files w' = files w -> R w -> R w'.

Lemma apiRequest_R E n v w : R w -> R (apiRequest E n v w).2.
Proof.
  destruct (apiRequest_effects E n v w) as (Hh & Hc & Hf).
  apply R_same; assumption.
Qed.

Lemma fromSemanticVersion_R E n sv w : R w -> R (fromSemanticVersion E n sv w).2.
Proof.
  intros Hw. unfold fromSemanticVersion, bind.
  assert (H : R (resolveVersion E n sv w).2).
  { unfold resolveVersion. destruct (String.eqb sv "*"); [exact Hw|].
    destruct (includes sv "<" || includes sv "-"); [|exact Hw].
    unfold bind. pose proof (apiRequest_R E n None w Hw) as H.
    destruct (apiRequest E n None w) as [[[r|]| |] w1]; try exact H.
    destruct (api_versions r); exact H. }
  destruct (resolveVersion E n sv w) as [[v| |] w1]; try exact H.
  apply R_fromNameAndVersion, H.
Qed.

Lemma addDependent_R this pkg w : R w -> R (addDependent this pkg w).2.
Proof.
  intros Hw. unfold addDependent.
  destruct (includes_loc (dependents (deref w this)) pkg); [exact Hw|].
  apply R_update; [reflexivity|reflexivity|exact Hw].
Qed.

Lemma getDependencies_loop_R E fuel this : forall entries result w,
  R w -> R (getDependencies_loop E fuel this entries result w).2.
Proof.
  induction entries as [|[n sv] rest IH]; intros result w Hw; [exact Hw|].
  cbn [getDependencies_loop]. unfold bind at 1.
  pose proof (fromSemanticVersion_R E n sv w Hw) as H1.
  destruct (fromSemanticVersion E n sv w) as [[dep| |] w1]; try exact H1.
  cbn [snd] in H1. unfold bind at 1. unfold isAncestorEqualM.
  destruct (isAncestorEqual fuel w1 this dep) as [[|]|]; try exact H1.
  - apply IH, H1.
  - unfold bind. pose proof (addDependent_R dep this w1 H1) as H2.
    destruct (addDependent dep this w1) as [[[]| |] w2]; cbn [snd] in H2;
      [apply IH, H2|exact H2|exact H2].
Qed.

Lemma getDependencies_R E fuel this w :
  R w -> R (getDependencies E fuel this w).2.
Proof.
  intros Hw. unfold getDependencies.
  assert (H0 : R (update this (set_loading true) w))
    by (apply R_update; [reflexivity|reflexivity|exact Hw]).
  set (w0 := update this (set_loading true) w) in *.
  pose proof (apiRequest_R E (name (deref w0 this))
                (Some (version (deref w0 this))) w0 H0) as H1.
  destruct (apiRequest E (name (deref w0 this))
              (Some (version (deref w0 this))) w0)
    as [[[body|]|e|] w1]; cbn [snd] in H1; try exact H1.
  - assert (H2 : R (update this
                   (set_tarballURL (tarball <$> api_dist body)) w1))
      by (apply R_update; [reflexivity|reflexivity|exact H1]).
    destruct (api_dependencies body) as [deps|]; [|exact H2].
    pose proof (getDependencies_loop_R E fuel this deps [] _ H2) as H3.
    destruct (getDependencies_loop E fuel this deps []
                (update this (set_tarballURL (tarball <$> api_dist body)) w1))
      as [[result| |] w3]; cbn [snd] in H3 |- *; try exact H3.
    apply R_update; [reflexivity|reflexivity|exact H3].
  - destruct (decide (e = ThrowStr Errors.REGISTRY_ERROR)); cbn [snd];
      [exact H1|].
    apply R_update; [reflexivity|reflexivity|].
    apply R_update; [reflexivity|reflexivity|exact H1].
Qed.

Lemma fillCacheByFullNames_R E : forall fullNames w,
  R w -> R (fillCacheByFullNames E fullNames w).2.
Proof.
  induction fullNames as [|s rest IH]; intros w Hw; [exact Hw|].
  cbn [fillCacheByFullNames]. unfold bind at 1. unfold fromString.
  destruct (npmPackageArg E s) as [p|]; [|apply IH, Hw].
  unfold bind at 1.
  pose proof (R_fromNameAndVersion (npa_name p)
                (default "latest" (npa_fetchSpec p)) w Hw) as H.
  destruct (fromNameAndVersion (npa_name p) (default "latest" (npa_fetchSpec p)) w)
    as [[node| |] w1]; cbn [snd] in H; try exact H.
  unfold ret. unfold bind at 1. unfold bind at 1. unfold modify.
  apply IH, R_insert, R_update; [reflexivity|reflexivity|exact H].
Qed.

End StepInvariant.

Lemma one_node_update l f w :
  (forall p, name (f p) = name p) -> (forall p, version (f p) = version p) ->
  one_node_per_name w -> one_node_per_name (update l f w).
Proof.
  intros Hn Hv [Hc Hu].
  assert (Hfull : forall l', fullName (deref (update l f w) l') = fullName (deref w l')).
  { intros l'. apply (deref_update_field fullName). intros p. unfold fullName.
    rewrite Hn, Hv. reflexivity. }
  split.
  - intros l'. simpl. rewrite length_alter. intros Hl. rewrite Hfull.
    apply Hc, Hl.
  - intros l1 l2. simpl. rewrite length_alter. intros H1 H2. rewrite !Hfull.
    apply Hu; assumption.
Qed.

Lemma one_node_fromNameAndVersion n v w :
  one_node_per_name w -> one_node_per_name (fromNameAndVersion n v w).2.
Proof.
  intros [Hc Hu].
  destruct (cache w !! fullNameByNameAndVersion n v) as [c|] eqn:Hk.
  - rewrite (fromNameAndVersion_cached n v w c Hk). split; assumption.
  - destruct (fromNameAndVersion_fresh n v w Hk) as (w' & Hrun & Hobj).
    pose proof (fromNameAndVersion_deref n v w) as Hold.
    assert (Hcache : cache w' = <[fullNameByNameAndVersion n v := length (heap w)]>
                                  (cache w)).
    { unfold fromNameAndVersion in Hrun. rewrite Hk in Hrun.
      inversion Hrun. reflexivity. }
    assert (Hlen : length (heap w') = S (length (heap w))).
    { unfold fromNameAndVersion in Hrun. rewrite Hk in Hrun.
      inversion Hrun. simpl. rewrite length_app. simpl. lia. }
    rewrite Hrun in Hold |- *. cbn [snd] in Hold |- *.
    assert (Hnew : fullName (deref w' (length (heap w)))
                   = fullNameByNameAndVersion n v)
      by (rewrite Hobj; reflexivity).
    assert (Hfresh : forall l, l < length (heap w) ->
              fullName (deref w l) <> fullNameByNameAndVersion n v).
    { intros l Hl Heq. destruct (Hc l Hl) as [x Hx]. congruence. }
    split.
    + intros l Hl. rewrite Hcache.
      destruct (decide (l < length (heap w))) as [Hlt|Hge].
      * rewrite Hold by exact Hlt. rewrite lookup_insert.
        case_decide; [eauto|apply Hc, Hlt].
      * replace l with (length (heap w)) by lia. rewrite Hnew.
        rewrite lookup_insert_eq. eauto.
    + intros l1 l2 H1 H2 Heq.
      destruct (decide (l1 < length (heap w))) as [Hl1|Hl1];
        destruct (decide (l2 < length (heap w))) as [Hl2|Hl2].
      * rewrite !Hold in Heq by assumption. apply Hu; assumption.
      * exfalso. replace l2 with (length (heap w)) in Heq by lia.
        rewrite Hnew, Hold in Heq by exact Hl1. exact (Hfresh l1 Hl1 Heq).
      * exfalso. replace l1 with (length (heap w)) in Heq by lia.
        rewrite Hnew, Hold in Heq by exact Hl2. symmetry in Heq.
        exact (Hfresh l2 Hl2 Heq).
      * lia.
Qed.

Lemma one_node_insert key node w :
  one_node_per_name w ->
  one_node_per_name (with_cache (<[key := node]> (cache w)) w).
Proof.
  intros [Hc Hu]. split; [|exact Hu].
  intros l Hl. change (deref (with_cache _ w) l) with (deref w l).
  cbn [cache with_cache]. rewrite lookup_insert.
  case_decide; [eauto|apply Hc, Hl].
Qed.

Lemma one_node_same w w' :
  heap w' = heap w -> cache w' = cache w ->
  one_node_per_name w -> one_node_per_name w'.
Proof.
  intros Hh Hc. unfold one_node_per_name, deref. rewrite Hh, Hc. auto.
Qed.

Lemma reachable_one_node E w : reachable E w -> one_node_per_name w.
Proof.
  induction 1 as [|w n v _ IH|w n sv _ IH|w s _ IH|w names _ IH
                  |w fuel this _ IH Hthis|w this _ IH Hthis].
  - split; simpl; intros; lia.
  - apply one_node_fromNameAndVersion, IH.
  - apply (fromSemanticVersion_R one_node_per_name
             one_node_fromNameAndVersion
             (fun w1 w2 Hh Hc _ => one_node_same w1 w2 Hh Hc)), IH.
  - destruct (fromString_state E s w) as [->|(n & v & ->)]; [exact IH|].
    apply one_node_fromNameAndVersion, IH.
  - apply (fillCacheByFullNames_R one_node_per_name one_node_update
             one_node_fromNameAndVersion one_node_insert), IH.
  - apply (getDependencies_R one_node_per_name one_node_update
             one_node_fromNameAndVersion
             (fun w1 w2 Hh Hc _ => one_node_same w1 w2 Hh Hc)), IH.
  - destruct (download_effects E this w) as (Hh & Hc & _).
    apply (one_node_same w); assumption.
Qed.

Lemma cached_by_name_update l f w :
  (forall p, name (f p) = name p) -> (forall p, version (f p) = version p) ->
  cached_by_name w -> cached_by_name (update l f w).
Proof.
  intros Hn Hv Hc l'. simpl. rewrite length_alter. intros Hl.
  rewrite (deref_update_field fullName).
  - apply Hc, Hl.
  - intros p. unfold fullName. rewrite Hn, Hv. reflexivity.
Qed.

Lemma cached_by_name_fromNameAndVersion n v w :
  cached_by_name w -> cached_by_name (fromNameAndVersion n v w).2.
Proof.
  intros Hc.
  destruct (cache w !! fullNameByNameAndVersion n v) as [c|] eqn:Hk.
  - rewrite (fromNameAndVersion_cached n v w c Hk). exact Hc.
  - destruct (fromNameAndVersion_fresh n v w Hk) as (w' & Hrun & Hobj).
    pose proof (fromNameAndVersion_deref n v w) as Hold.
    assert (Hcache : cache w' = <[fullNameByNameAndVersion n v := length (heap w)]>
                                  (cache w)).
    { unfold fromNameAndVersion in Hrun. rewrite Hk in Hrun.
      inversion Hrun. reflexivity. }
    assert (Hlen : length (heap w') = S (length (heap w))).
    { unfold fromNameAndVersion in Hrun. rewrite Hk in Hrun.
      inversion Hrun. simpl. rewrite length_app. simpl. lia. }
    rewrite Hrun in Hold |- *. cbn [snd] in Hold |- *.
    intros l Hl. rewrite Hcache.
    destruct (decide (l < length (heap w))) as [Hlt|Hge].
    + rewrite Hold by exact Hlt. rewrite lookup_insert_ne; [apply Hc, Hlt|].
      intros Heq. pose proof (Hc l Hlt) as Hl'. rewrite <- Heq in Hl'. unfold loc in *. congruence.
    + replace l with (length (heap w)) by lia. rewrite Hobj.
      apply lookup_insert_eq.
Qed.

Lemma cached_by_name_same w w' :
  heap w' = heap w -> cache w' = cache w ->
  cached_by_name w -> cached_by_name w'.
Proof.
  intros Hh Hc. unfold cached_by_name, deref. rewrite Hh, Hc. auto.
Qed.

(** Without the seeding, the cache keeps leading from each full name to
    the object of that name. *)
Lemma later_cached_by_name E w w' :
  cached_by_name w -> later E w w' -> cached_by_name w'.
Proof.
  intros Hw. induction 1 as [|w' n v _ IH|w' n sv _ IH|w' s _ IH|w' n v _ IH
                             |w' fuel this _ IH|w' this _ IH].
  - exact Hw.
  - apply cached_by_name_fromNameAndVersion, IH.
  - apply (fromSemanticVersion_R cached_by_name
             cached_by_name_fromNameAndVersion
             (fun w1 w2 Hh Hc _ => cached_by_name_same w1 w2 Hh Hc)), IH.
  - destruct (fromString_state E s w') as [->|(n & v & ->)]; [exact IH|].
    apply cached_by_name_fromNameAndVersion, IH.
  - destruct (apiRequest_effects E n v w') as (Hh & Hc & _).
    apply (cached_by_name_same w'); assumption.
  - apply (getDependencies_R cached_by_name cached_by_name_update
             cached_by_name_fromNameAndVersion
             (fun w1 w2 Hh Hc _ => cached_by_name_same w1 w2 Hh Hc)), IH.
  - destruct (download_effects E this w') as (Hh & Hc & _).
    apply (cached_by_name_same w'); assumption.
Qed.

(** X23. In every state that the program reaches there is one object per
    full name: the full name of each object is a key of the cache, and on
    the objects of the heap [isEqual], which compares full names, holds
    exactly between an object and itself. In the states reached without the
    seeding, the key leads to the object itself; the seeding, which also
    stores its object under the specifier as it was given, can lead the
    full name of an earlier object to another one. *)
Theorem reachable_one_node_per_name (E : Env) (w : World) :
  reachable E w ->
  forall l1 l2, l1 < length (heap w) -> l2 < length (heap w) ->
    is_Some (cache w !! fullName (deref w l1))
    /\ (isEqual (deref w l1) (deref w l2) = true <-> l1 = l2)
    /\ (later E emptyWorld w -> cache w !! fullName (deref w l1) = Some l1).
Proof.
  intros Hreach l1 l2 H1 H2.
  destruct (reachable_one_node E w Hreach) as [Hc Hu].
  split; [apply Hc, H1|]. split.
  - unfold isEqual. split.
    + intros Heq. apply String.eqb_eq in Heq. symmetry. apply Hu; assumption.
    + intros ->. apply String.eqb_refl.
  - intros Hlater. refine (later_cached_by_name E emptyWorld w _ Hlater l1 H1).
    intros l Hl. simpl in Hl. lia.
Qed.

Lemma reachable_one_node_per_name_witness :
  (isEqual
     (deref (getDependencies (Lib.env Fixture.net_cycle) 2 0
               (fromNameAndVersion "a" "1.0.0" emptyWorld).2).2 0)
     (deref (getDependencies (Lib.env Fixture.net_cycle) 2 0
               (fromNameAndVersion "a" "1.0.0" emptyWorld).2).2 1) = true
   <-> 0 = 1)
  /\ cache (getDependencies (Lib.env Fixture.net_cycle) 2 0
              (fromNameAndVersion "a" "1.0.0" emptyWorld).2).2
       !! fullName
            (deref (getDependencies (Lib.env Fixture.net_cycle) 2 0
                      (fromNameAndVersion "a" "1.0.0" emptyWorld).2).2 0)
     = Some 0.
Proof.
  destruct (reachable_one_node_per_name (Lib.env Fixture.net_cycle)
              (getDependencies (Lib.env Fixture.net_cycle) 2 0
                 (fromNameAndVersion "a" "1.0.0" emptyWorld).2).2)
    with (l1 := 0) (l2 := 1) as (_ & Heq & Hkey).
  - apply reachable_getDependencies.
    + apply reachable_fromNameAndVersion, reachable_empty.
    + vm_compute. lia.
  - vm_compute. lia.
  - vm_compute. lia.
  - split; [exact Heq|]. apply Hkey.
    apply later_getDependencies, later_fromNameAndVersion, later_now.
Defined.

(** ** Further properties: what the expansion leaves in place *)

Lemma fromNameAndVersion_files n v w : files (fromNameAndVersion n v w).2 = files w.
Proof.
  unfold fromNameAndVersion.
  destruct (cache w !! fullNameByNameAndVersion n v); reflexivity.
Qed.

(** X8. Whatever [getDependencies] ends with, the later state keeps the
    earlier one: no object disappears or changes its name or version, no
    recorded dependent is lost, no cache entry is removed or led to another
    object, valid cached references stay valid, and no file is written. *)
Theorem getDependencies_evolves (E : Env) (fuel : nat) (this : loc) (w : World) :
  evolves w (getDependencies E fuel this w).2
  /\ files (getDependencies E fuel this w).2 = files w.
Proof.
  split; [apply getDependencies_keeps|].
  apply (getDependencies_R (fun w' => files w' = files w)).
  - intros l f w1 _ _ H. exact H.
  - intros n v w1 H. rewrite fromNameAndVersion_files. exact H.
  - intros w1 w2 _ _ Hf H. rewrite Hf. exact H.
  - reflexivity.
Qed.

(** ** The node cache between two calls *)






(** ** The cached versions object as it is read *)

(** C10 (amended). A request with a version, for a name whose unscoped
    response is cached, makes no request and changes nothing. When the
    cached response has a versions object, the result is the property read
    [versions[version]]: the entry when the version is a key of the object,
    the value inherited from [Object.prototype] when it is not a key but a
    property name of the prototype, and [undefined] otherwise; nothing is
    thrown. When the cached response has no versions object, the read
    throws a [TypeError]. *)
Theorem apiRequest_cached_version_lookup (E : Env) (n version : string)
    (w : World) (cached : APIResponse) :
  apiCache w !! n = Some cached ->
  version <> "" ->
  (api_versions cached = None ->
   apiRequest E n (Some version) w = (Throw TypeError, w))
  /\ (forall versions, api_versions cached = Some versions ->
      (forall pre entry post,
         versions = pre ++ (version, entry) :: post -> version ∉ keys pre ->
         apiRequest E n (Some version) w = (Ok (Some entry), w))
      /\ (version ∉ keys versions -> version ∈ Object_prototype_keys ->
          apiRequest E n (Some version) w = (Ok (Some inherited_value), w))
      /\ (version ∉ keys versions -> version ∉ Object_prototype_keys ->
          apiRequest E n (Some version) w = (Ok None, w))).
Proof.
  intros Hc Hne. split.
  - intros Hv. apply (apiRequest_cached_no_versions E n version w cached Hc Hv Hne).
  - intros versions Hv.
    assert (H : apiRequest E n (Some version) w
                = (Ok (get_entry version versions), w)).
    { unfold apiRequest. rewrite Hc. cbn [truthy_opt].
      rewrite (truthy_ne _ Hne), Hv. reflexivity. }
    rewrite H. split; [|split].
    + intros pre entry post -> Hpre. rewrite get_entry_own by exact Hpre.
      reflexivity.
    + intros Hk Hp. rewrite get_entry_inherited by assumption. reflexivity.
    + intros Hk Hp. rewrite get_entry_undefined by assumption. reflexivity.
Qed.

Lemma apiRequest_cached_version_lookup_witness :
  apiRequest (Lib.env Fixture.net_down) "dep" (Some "3.9.3")
    (with_apiCache {["dep" := Fixture.dep_packument]} emptyWorld)
  = (Ok (Some (Fixture.manifest [])),
     with_apiCache {["dep" := Fixture.dep_packument]} emptyWorld)
  /\ apiRequest (Lib.env Fixture.net_down) "dep" (Some "9.9.9")
       (with_apiCache {["dep" := Fixture.dep_packument]} emptyWorld)
     = (Ok None, with_apiCache {["dep" := Fixture.dep_packument]} emptyWorld)
  /\ apiRequest (Lib.env Fixture.net_down) "dep" (Some "1.0.0")
       (with_apiCache {["dep" := Fixture.manifest []]} emptyWorld)
     = (Throw TypeError, with_apiCache {["dep" := Fixture.manifest []]} emptyWorld).
Proof.
  assert (Hkeys : forall v, v <> "3.0.0" -> v <> "3.9.3" -> v <> "4.0.0" ->
            v ∉ keys [("3.0.0", Fixture.manifest []); ("3.9.3", Fixture.manifest []);
                      ("4.0.0", Fixture.manifest [])]).
  { intros v H1 H2 H3. unfold keys; simpl. rewrite !elem_of_cons, elem_of_nil.
    intros [H|[H|[H|H]]]; congruence. }
  split; [|split].
  - refine (proj1 (proj2 (apiRequest_cached_version_lookup
              (Lib.env Fixture.net_down) "dep" "3.9.3"
              (with_apiCache {["dep" := Fixture.dep_packument]} emptyWorld)
              Fixture.dep_packument (lookup_singleton_eq _ _) _) _ eq_refl)
              [("3.0.0", Fixture.manifest [])] (Fixture.manifest [])
              [("4.0.0", Fixture.manifest [])] eq_refl _).
    + discriminate.
    + unfold keys; simpl. rewrite elem_of_cons, elem_of_nil.
      intros [H|H]; [discriminate H|exact H].
  - refine (proj2 (proj2 (proj2 (apiRequest_cached_version_lookup
              (Lib.env Fixture.net_down) "dep" "9.9.9"
              (with_apiCache {["dep" := Fixture.dep_packument]} emptyWorld)
              Fixture.dep_packument (lookup_singleton_eq _ _) _) _ eq_refl)) _ _).
    + discriminate.
    + apply Hkeys; discriminate.
    + apply (bool_decide_eq_false_1 _). reflexivity.
  - refine (proj1 (apiRequest_cached_version_lookup
              (Lib.env Fixture.net_down) "dep" "1.0.0"
              (with_apiCache {["dep" := Fixture.manifest []]} emptyWorld)
              (Fixture.manifest []) (lookup_singleton_eq _ _) _) eq_refl).
    discriminate.
Defined.

(** C10, as stated, fails: with the name cached and the version absent from
    the versions object, the request for [constructor] does not give
    [undefined], and a cached response without a versions object makes the
    request throw. *)
Lemma apiRequest_cached_lookup_not_undefined :
  ("constructor" ∉ keys [("3.0.0", Fixture.manifest []);
                         ("3.9.3", Fixture.manifest []);
                         ("4.0.0", Fixture.manifest [])])
  /\ fst (apiRequest (Lib.env Fixture.net_down) "dep" (Some "constructor")
            (with_apiCache {["dep" := Fixture.dep_packument]} emptyWorld))
     <> Ok None
  /\ fst (apiRequest (Lib.env Fixture.net_down) "dep" (Some "1.0.0")
            (with_apiCache {["dep" := Fixture.manifest []]} emptyWorld))
     = Throw TypeError.
Proof.
  split; [|split].
  - unfold keys; simpl. rewrite !elem_of_cons, elem_of_nil.
    intros [H|[H|[H|H]]]; try discriminate H; exact H.
  - vm_compute. discriminate.
  - vm_compute. reflexivity.
Qed.

(** ** The destination of a download *)















